(** * TrafficManagement: a shallow embedding of TrafficManagement.cpp

    The development follows the C++ translation unit class by class:
    [LightState], [VehicleType], [Vehicle], [TrafficLight], [Lane],
    [Vehicle::move], [Simulation] and [main].

    Modelling conventions.
    - [int] is a 32-bit two's-complement integer carried in [Z]; additions
      go through [int_add], which wraps.  (Signed overflow is undefined in
      C++; the wrap is what the usual targets produce.)
    - [double] is idealised by the exact rationals [Qc]: rounding, infinities
      and NaN are outside the model.  Literals are written [dbl q].
    - [Vehicle*] is an address into the vehicle free store, a [list Vehicle.t]
      in allocation order; [new Vehicle] appends.  No vehicle is deleted
      before [~Simulation], so addresses are never reused.
    - [Lane*] is the index of the lane in [Simulation::lanes]; lanes are
      created by [setup] only and never removed.  Each lane owns its
      [TrafficLight], which is therefore stored inline.
    - An operation that dereferences an invalid pointer or indexes a vector
      or string out of bounds has no behaviour in C++; it returns [None].
    - The Mersenne twister is replaced by an oracle: every tick receives a
      [Draws] record with the values the distributions would return.
    - The destructors run after [main] has printed its last line and are
      not modelled. *)

From Stdlib Require Import ZArith QArith Qcanon String Ascii Lia.
From stdpp Require Import base option list numbers strings pretty sorting.

Local Open Scope Z_scope.

(** ** Machine numbers *)

Definition INT_MIN : Z := - 2 ^ 31.
Definition INT_MAX : Z := 2 ^ 31 - 1.

Definition int_wrap (z : Z) : Z := (z + 2 ^ 31) mod 2 ^ 32 - 2 ^ 31.
Definition int_add (a b : Z) : Z := int_wrap (a + b).

Abbreviation double := Qc (only parsing).

Definition dbl (q : Q) : double := Q2Qc q.
(** implicit conversion [int -> double] *)
Definition double_of_int (z : Z) : double := Q2Qc (inject_Z z).
(** [static_cast<int>(double)]: truncation toward zero.  Outside the range
    of [int] the C++ result is undefined; the model keeps the mathematical
    value. *)
Definition static_cast_int (x : double) : Z := Z.quot (Qnum x) (Zpos (Qden x)).

(** ** Enumerations *)

Inductive LightState := RED | YELLOW | GREEN.
Inductive VehicleType := CAR | BUS | TRUCK | MOTORCYCLE.

#[global] Instance LightState_eq_dec : EqDecision LightState.
Proof. solve_decision. Defined.
#[global] Instance VehicleType_eq_dec : EqDecision VehicleType.
Proof. solve_decision. Defined.

(** [static_cast<VehicleType>(int)] on the enumerators' values, the only
    ones [typeDist(0, 3)] returns; other integers name no vehicle type. *)
Definition static_cast_VehicleType (n : Z) : option VehicleType :=
  match n with
  | 0 => Some CAR
  | 1 => Some BUS
  | 2 => Some TRUCK
  | 3 => Some MOTORCYCLE
  | _ => None
  end.

Abbreviation lane_ptr := nat (only parsing).
Abbreviation vehicle_ptr := nat (only parsing).

(** ** class Vehicle *)

Module Vehicle.

Record t := mk {
  id : Z;
  type : VehicleType;
  speed : double;
  position : double;
  currentLane : option lane_ptr   (* [None] is [nullptr] *)
}.

Definition new (id : Z) (type : VehicleType) (speed : double) : t :=
  mk id type speed (dbl 0) None.

Definition setSpeed (v : t) (s : double) : t :=
  mk (id v) (type v) s (position v) (currentLane v).
Definition setPosition (v : t) (p : double) : t :=
  mk (id v) (type v) (speed v) p (currentLane v).
Definition setCurrentLane (v : t) (lane : option lane_ptr) : t :=
  mk (id v) (type v) (speed v) (position v) lane.

Definition getSymbol (v : t) : string :=
  match type v with
  | CAR => "C"
  | BUS => "B"
  | TRUCK => "T"
  | MOTORCYCLE => "M"
  end.

End Vehicle.

(** ** class TrafficLight *)

Module TrafficLight.

Record t := mk {
  state : LightState;
  greenTime : Z;
  yellowTime : Z;
  redTime : Z;
  timer : Z
}.

Definition new (g y r : Z) : t := mk RED g y r 0.

Definition set (l : t) (s : LightState) (tm : Z) : t :=
  mk s (greenTime l) (yellowTime l) (redTime l) tm.

Definition update (l : t) (step : Z) : t :=
  let tm := int_add (timer l) step in
  match state l with
  | GREEN => if bool_decide (greenTime l ≤ tm) then set l YELLOW 0 else set l GREEN tm
  | YELLOW => if bool_decide (yellowTime l ≤ tm) then set l RED 0 else set l YELLOW tm
  | RED => if bool_decide (redTime l ≤ tm) then set l GREEN 0 else set l RED tm
  end.

Definition getState (l : t) : LightState := state l.

Definition getSymbol (l : t) : string :=
  match state l with
  | GREEN => "🟢"
  | YELLOW => "🟡"
  | RED => "🔴"
  end.

End TrafficLight.

(** ** class Lane *)

Module Lane.

Record t := mk {
  id : Z;
  length : double;
  speedLimit : double;
  vehicles : list vehicle_ptr;
  light : TrafficLight.t
}.

Definition new (id : Z) (len limit : double) : t :=
  mk id len limit [] (TrafficLight.new 10 3 7).

Definition set_vehicles (l : t) (vs : list vehicle_ptr) : t :=
  mk (id l) (length l) (speedLimit l) vs (light l).
Definition set_light (l : t) (tl : TrafficLight.t) : t :=
  mk (id l) (length l) (speedLimit l) (vehicles l) tl.

End Lane.

(** The part of memory the lane and vehicle methods work on: the lane
    objects and the vehicle free store. *)
Abbreviation Mem := (list Lane.t * list Vehicle.t)%type (only parsing).

Local Open Scope Qc_scope.

(** ** Vehicle::move

    [light] is never null ([Lane::Lane] allocates it), so the test
    [light && ...] reduces to the three remaining conjuncts. *)
Definition Vehicle_move (lanes : list Lane.t) (v : Vehicle.t) (timeStep : double)
  : option Vehicle.t :=
  match Vehicle.currentLane v with
  | None => Some v
  | Some l =>
    lane ← lanes !! l;
    let mps := Vehicle.speed v * dbl 1000 / dbl 3600 in
    let nextPos := Vehicle.position v + mps * timeStep in
    if bool_decide (TrafficLight.getState (Lane.light lane) ≠ GREEN)
       && bool_decide (Vehicle.position v < Lane.length lane - dbl 10)
       && bool_decide (Lane.length lane - dbl 10 ≤ nextPos)
    then Some (Vehicle.setSpeed v (dbl 0))
    else Some (Vehicle.setPosition v nextPos)
  end.

(** ** Lane::addVehicle *)
Definition Lane_addVehicle (this : lane_ptr) (p : vehicle_ptr) (m : Mem) : option Mem :=
  lane ← m.1 !! this;
  v ← m.2 !! p;
  Some (<[this := Lane.set_vehicles lane (Lane.vehicles lane ++ [p])]> m.1,
        <[p := Vehicle.setCurrentLane v (Some this)]> m.2).

(** ** Lane::update

    The iterator loop: [vs] is the part of the vector from [it] on; the
    result lists the elements that were not erased. *)
Fixpoint Lane_update_loop (lanes : list Lane.t) (len : double) (timeStep : Z)
    (vs : list vehicle_ptr) (heap : list Vehicle.t)
  : option (list vehicle_ptr * list Vehicle.t) :=
  match vs with
  | [] => Some ([], heap)
  | p :: rest =>
    v ← heap !! p;
    v' ← Vehicle_move lanes v (double_of_int timeStep);
    let heap' := <[p := v']> heap in
    if bool_decide (len ≤ Vehicle.position v')
    then Lane_update_loop lanes len timeStep rest heap'
    else
      '(kept, heap'') ← Lane_update_loop lanes len timeStep rest heap';
      Some (p :: kept, heap'')
  end.

Definition Lane_update (this : lane_ptr) (timeStep : Z) (m : Mem) : option Mem :=
  lane ← m.1 !! this;
  let lane1 := Lane.set_light lane (TrafficLight.update (Lane.light lane) timeStep) in
  let lanes1 := <[this := lane1]> m.1 in
  '(kept, heap') ← Lane_update_loop lanes1 (Lane.length lane1) timeStep
                     (Lane.vehicles lane1) m.2;
  Some (<[this := Lane.set_vehicles lane1 kept]> lanes1, heap').

(** ** The random draws of one tick

    [spawnDraw] is [uniform_real_distribution<>(0, 1)(rng)]; the other three
    are what [typeDist], [speedDist] and [laneDist] return when
    [generateVehicle] runs. *)
Record Draws := mkDraws {
  spawnDraw : double;
  typeDraw : Z;
  speedDraw : double;
  laneDraw : Z
}.

(** What the terminal sees. *)
Inductive Event :=
| Clear                 (* system("clear") *)
| Print (s : string)    (* std::cout << s *)
| Sleep (ms : Z).       (* std::this_thread::sleep_for *)

(** [road[pos] = c] on a [std::string]: defined only inside the buffer. *)
Definition string_set (road : list ascii) (pos : Z) (c : ascii) : option (list ascii) :=
  if bool_decide (0 ≤ pos < Z.of_nat (length road))%Z
  then Some (<[Z.to_nat pos := c]> road)
  else None.

(** [s[0]] on a [std::string] (the terminator when [s] is empty). *)
Definition string_front (s : string) : ascii :=
  match s with
  | String c _ => c
  | EmptyString => "000"%char
  end.

(** ** class Simulation *)

Module Simulation.

Record t := mk {
  lanes : list Lane.t;
  vehicles : list vehicle_ptr;
  nextId : Z;
  simTime : Z
}.

Definition new : t := mk [] [] 1%Z 0%Z.

Definition setup (s : t) : t :=
  mk (lanes s ++ [Lane.new 1 (dbl 500) (dbl 50); Lane.new 2 (dbl 600) (dbl 40)])
     (vehicles s) (nextId s) (simTime s).

Definition generateVehicle (d : Draws) (st : t * list Vehicle.t)
  : option (t * list Vehicle.t) :=
  let s := st.1 in
  type ← static_cast_VehicleType (typeDraw d);
  let speed := speedDraw d in
  let laneIndex := laneDraw d in
  (* v = new Vehicle(nextId++, type, speed) *)
  let v := length st.2 in
  let heap1 := st.2 ++ [Vehicle.new (nextId s) type speed] in
  let nextId1 := int_add (nextId s) 1 in
  (* lanes[laneIndex]->addVehicle(v) *)
  guard (0 ≤ laneIndex)%Z;;
  '(lanes2, heap2) ← Lane_addVehicle (Z.to_nat laneIndex) v (lanes s, heap1);
  (* vehicles.push_back(v) *)
  Some (mk lanes2 (vehicles s ++ [v]) nextId1 (simTime s), heap2).

(** [for (auto lane : lanes) lane->update(step)] *)
Fixpoint update_lanes (ls : list lane_ptr) (step : Z) (m : Mem) : option Mem :=
  match ls with
  | [] => Some m
  | l :: ls' => m' ← Lane_update l step m; update_lanes ls' step m'
  end.

Definition update (step : Z) (d : Draws) (st : t * list Vehicle.t)
  : option (t * list Vehicle.t) :=
  let s0 := mk (lanes st.1) (vehicles st.1) (nextId st.1) (int_add (simTime st.1) step) in
  '(s1, heap1) ← (if bool_decide (spawnDraw d < dbl 0.3)
                  then generateVehicle d (s0, st.2)
                  else Some (s0, st.2));
  '(lanes2, heap2) ← update_lanes (seq 0 (length (lanes s1))) step (lanes s1, heap1);
  Some (mk lanes2 (vehicles s1) (nextId s1) (simTime s1), heap2).

(** The inner loop of [display]: one marker per vehicle of the lane. *)
Fixpoint draw_vehicles (len : double) (heap : list Vehicle.t)
    (vs : list vehicle_ptr) (road : list ascii) : option (list ascii) :=
  match vs with
  | [] => Some road
  | p :: rest =>
    v ← heap !! p;
    let pos := static_cast_int
                 (Vehicle.position v / len * double_of_int (Z.of_nat (length road))) in
    road' ← (if bool_decide (0 ≤ pos)%Z && bool_decide (pos < 50)%Z
             then string_set road pos (string_front (Vehicle.getSymbol v))
             else Some road);
    draw_vehicles len heap rest road'
  end.

Definition display_lane (heap : list Vehicle.t) (lane : Lane.t) : option (list Event) :=
  let road := replicate 50 "-"%char in
  road' ← draw_vehicles (Lane.length lane) heap (Lane.vehicles lane) road;
  Some [Print ("Lane " +:+ pretty (Lane.id lane) +:+ " [Light: "
               +:+ TrafficLight.getSymbol (Lane.light lane) +:+ "]" +:+ "
  ");
        Print (string_of_list_ascii road' +:+ "

")].

Fixpoint display_lanes (heap : list Vehicle.t) (ls : list Lane.t) : option (list Event) :=
  match ls with
  | [] => Some []
  | lane :: ls' =>
    out ← display_lane heap lane;
    out' ← display_lanes heap ls';
    Some (out ++ out')
  end.

Definition display (st : t * list Vehicle.t) : option (list Event) :=
  out ← display_lanes st.2 (lanes st.1);
  Some (Clear :: Print ("Simulation Time: " +:+ pretty (simTime st.1) +:+ "s
") :: out).

Definition isRunning (s : t) : bool := bool_decide (simTime s < 60)%Z.

End Simulation.

(** ** main

    [rng k] gives the draws of the iteration numbered [k] (from 0).  The
    [while] loop is unrolled at most [fuel] times; the result carries the
    number of iterations that ran. *)
Inductive Outcome (A : Type) :=
| Returned (a : A)
| Undefined
| OutOfFuel.
Arguments Returned {A} a.
Arguments Undefined {A}.
Arguments OutOfFuel {A}.

Fixpoint main_loop (fuel : nat) (rng : nat → Draws) (k : nat)
    (st : Simulation.t * list Vehicle.t) (out : list Event)
  : Outcome (nat * (Simulation.t * list Vehicle.t) * list Event) :=
  if Simulation.isRunning st.1 then
    match fuel with
    | O => OutOfFuel
    | S fuel' =>
      match Simulation.update 1 (rng k) st with
      | None => Undefined
      | Some st' =>
        match Simulation.display st' with
        | None => Undefined
        | Some frame => main_loop fuel' rng (S k) st' (out ++ frame ++ [Sleep 500])
        end
      end
    end
  else Returned (k, st, out).

Definition main (fuel : nat) (rng : nat → Draws) : Outcome (list Event * Z) :=
  let sim := Simulation.setup Simulation.new in
  match main_loop fuel rng 0 (sim, []) [] with
  | Returned (_, _, out) => Returned (out ++ [Print "Simulation ended.
"], 0%Z)
  | Undefined => Undefined
  | OutOfFuel => OutOfFuel
  end.

(** * Vocabulary of the statements

    None of the definitions below is part of the program: they name what
    the statements talk about (the cycle of a light, the stop-line rule,
    valid pointers, runs of several ticks) and fix a few concrete
    scenarios. *)

(** ** Traffic lights *)

(** The successor of a light state on the cycle. *)
Definition next_state (s : LightState) : LightState :=
  match s with
  | GREEN => YELLOW
  | YELLOW => RED
  | RED => GREEN
  end.

(** The dwell duration of the state a light is in. *)
Definition dwell (l : TrafficLight.t) : Z :=
  match TrafficLight.state l with
  | GREEN => TrafficLight.greenTime l
  | YELLOW => TrafficLight.yellowTime l
  | RED => TrafficLight.redTime l
  end.

(** A light after a sequence of [update] calls, and the states it shows on
    the way (the first entry is the state before any call). *)
Definition light_updates (l : TrafficLight.t) (steps : list Z) : TrafficLight.t :=
  foldl TrafficLight.update l steps.

Fixpoint light_trace (l : TrafficLight.t) (steps : list Z) : list LightState :=
  match steps with
  | [] => [TrafficLight.state l]
  | step :: rest => TrafficLight.state l :: light_trace (TrafficLight.update l step) rest
  end.

(** A list of states in which every entry is followed by itself or by its
    successor on the cycle. *)
Inductive follows_cycle : list LightState → Prop :=
| follows_one s : follows_cycle [s]
| follows_stay s rest : follows_cycle (s :: rest) → follows_cycle (s :: s :: rest)
| follows_next s rest :
    follows_cycle (next_state s :: rest) → follows_cycle (s :: next_state s :: rest).

(** ** Vehicle motion *)

(** The position [move] computes before it looks at the light. *)
Definition candidate (v : Vehicle.t) (timeStep : double) : double :=
  Vehicle.position v + Vehicle.speed v * dbl 1000 / dbl 3600 * timeStep.

(** The stop-line rule applies: the light of the lane is not GREEN, the
    vehicle is before the stop line and its candidate position is not. *)
Definition stop_line_rule (lane : Lane.t) (v : Vehicle.t) (timeStep : double) : Prop :=
  TrafficLight.state (Lane.light lane) ≠ GREEN
  ∧ Vehicle.position v < Lane.length lane - dbl 10
  ∧ Lane.length lane - dbl 10 ≤ candidate v timeStep.

#[global] Instance stop_line_rule_dec lane v timeStep :
  Decision (stop_line_rule lane v timeStep).
Proof. unfold stop_line_rule. apply _. Defined.

(** A vehicle through a sequence of [move] calls, each with the lanes as
    they are at that call and its own time step. *)
Fixpoint Vehicle_moves (v : Vehicle.t) (calls : list (list Lane.t * double))
  : option Vehicle.t :=
  match calls with
  | [] => Some v
  | (lanes, timeStep) :: rest => v' ← Vehicle_move lanes v timeStep; Vehicle_moves v' rest
  end.

(** ** Well-formed memory *)

(** The back-reference of a vehicle, when set, points to an existing lane. *)
Definition Vehicle_ok (nlanes : nat) (v : Vehicle.t) : Prop :=
  ∀ l, Vehicle.currentLane v = Some l → (l < nlanes)%nat.

(** A lane's vector holds addresses of allocated vehicles, each once. *)
Definition Lane_ok (heap : list Vehicle.t) (lane : Lane.t) : Prop :=
  NoDup (Lane.vehicles lane) ∧ Forall (λ p, (p < length heap)%nat) (Lane.vehicles lane).

(** Both hold throughout: the state after [setup] satisfies [Mem_ok] and
    every tick preserves it ([setup_Mem_ok], [Simulation_update_ok]). *)
Definition Mem_ok (m : Mem) : Prop :=
  Forall (Lane_ok m.2) m.1 ∧ Forall (Vehicle_ok (length m.1)) m.2.

(** The address [p] is in the vector of some lane. *)
Definition in_lanes (p : vehicle_ptr) (lanes : list Lane.t) : Prop :=
  ∃ l lane, lanes !! l = Some lane ∧ p ∈ Lane.vehicles lane.

(** ** Lane updates *)

(** One iteration's effect on the free store: the vehicle at [p] moves. *)
Definition move_at (lanes : list Lane.t) (timeStep : Z) (heap : list Vehicle.t)
    (p : vehicle_ptr) : list Vehicle.t :=
  match heap !! p with
  | Some v =>
    match Vehicle_move lanes v (double_of_int timeStep) with
    | Some v' => <[p := v']> heap
    | None => heap
    end
  | None => heap
  end.

(** The vehicle at [p] is before the end of a lane of length [len]. *)
Definition stays (len : double) (heap : list Vehicle.t) (p : vehicle_ptr) : bool :=
  match heap !! p with
  | Some v => bool_decide (Vehicle.position v < len)
  | None => false
  end.

(** A lane after some updates: same identity and geometry, and a vector
    that is a sublist of the earlier one. *)
Definition Lane_shrinks (lane lane' : Lane.t) : Prop :=
  Lane.id lane' = Lane.id lane ∧ Lane.length lane' = Lane.length lane
  ∧ Lane.speedLimit lane' = Lane.speedLimit lane
  ∧ Lane.vehicles lane' `sublist_of` Lane.vehicles lane.

(** A lane over one tick that allocates at most the address [n]. *)
Definition Lane_tick (n : nat) (step : Z) (lane lane' : Lane.t) : Prop :=
  Lane.id lane' = Lane.id lane ∧ Lane.length lane' = Lane.length lane
  ∧ Lane.speedLimit lane' = Lane.speedLimit lane
  ∧ Lane.light lane' = TrafficLight.update (Lane.light lane) step
  ∧ ∀ p, p ∈ Lane.vehicles lane' → p ∈ Lane.vehicles lane ∨ p = n.

(** ** Ticks and runs *)

(** The draws respect the ranges of their distributions, for [nlanes]
    lanes: [typeDist(0, 3)], [speedDist(20, 50)] (an interval open on the
    right) and [laneDist(0, lanes.size() - 1)].  The three are drawn only
    when a vehicle is generated. *)
Definition Draws_ok (nlanes : nat) (d : Draws) : Prop :=
  spawnDraw d < dbl 0.3 →
  (0 ≤ typeDraw d ≤ 3)%Z
  ∧ (dbl 20 ≤ speedDraw d ∧ speedDraw d < dbl 50)
  ∧ (0 ≤ laneDraw d < Z.of_nat nlanes)%Z.

(** [simTime += step] *)
Definition tick_time (s : Simulation.t) (step : Z) : Simulation.t :=
  Simulation.mk (Simulation.lanes s) (Simulation.vehicles s) (Simulation.nextId s)
    (int_add (Simulation.simTime s) step).

(** The vehicle [generateVehicle] allocates, once [addVehicle] has set its
    back-reference, and the state it leaves. *)
Definition spawned (s : Simulation.t) (ty : VehicleType) (speed : double)
    (l : lane_ptr) : Vehicle.t :=
  Vehicle.mk (Simulation.nextId s) ty speed (dbl 0) (Some l).

Definition after_spawn (s : Simulation.t) (heap : list Vehicle.t)
    (l : lane_ptr) (lane : Lane.t) : Simulation.t :=
  Simulation.mk
    (<[l := Lane.set_vehicles lane (Lane.vehicles lane ++ [length heap])]>
       (Simulation.lanes s))
    (Simulation.vehicles s ++ [length heap])
    (int_add (Simulation.nextId s) 1)
    (Simulation.simTime s).


(** [n] consecutive ticks [update(step)], the first with the draws [rng k]. *)
Fixpoint Simulation_run (step : Z) (n : nat) (rng : nat → Draws) (k : nat)
    (st : Simulation.t * list Vehicle.t) : option (Simulation.t * list Vehicle.t) :=
  match n with
  | O => Some st
  | S n' => st' ← Simulation.update step (rng k) st; Simulation_run step n' rng (S k) st'
  end.

(** ** Rendering *)

(** The track index [display] computes for a vehicle. *)
Definition track_index (len : double) (v : Vehicle.t) : Z :=
  static_cast_int (Vehicle.position v / len * double_of_int 50).

#[global] Instance Event_eq_dec : EqDecision Event.
Proof. solve_decision. Defined.

#[global] Instance is_sleep_dec e : Decision (∃ ms, e = Sleep ms).
Proof.
  destruct e as [|str|ms]; [right|right|left]; [by intros [? ?]..|by exists ms].
Defined.

(** How often a list of events clears the screen, and how often it sleeps. *)
Definition count_clears (evs : list Event) : nat :=
  length (filter (λ e, e = Clear) evs).
Definition count_sleeps (evs : list Event) : nat :=
  length (filter (λ e, ∃ ms, e = Sleep ms) evs).

(** ** Concrete scenarios *)

(** The spec's own scenario: a 500 m lane whose light is in a given state
    and a car in it, at a given position (m) and speed (km/h). *)
Definition lane_with (st : LightState) : Lane.t :=
  Lane.mk 1 (dbl 500) (dbl 50) [0%nat] (TrafficLight.mk st 10 3 7 0).
Definition vehicle_at (pos speed : Q) : Vehicle.t :=
  Vehicle.mk 1 CAR (dbl speed) (dbl pos) (Some 0%nat).

(** A lane of 500 m under a RED light, with three vehicles at 36 km/h:
    5 m before the end, at 100 m, and 12 m before the end. *)
Definition demo_lane : Lane.t :=
  Lane.mk 1 (dbl 500) (dbl 50) [0; 1; 2]%nat (TrafficLight.mk RED 10 3 7 0).
Definition demo_heap : list Vehicle.t :=
  [vehicle_at 495 36; vehicle_at 100 36; vehicle_at 488 36].


(** Draws that spawn a BUS at 30 km/h in lane 1, and draws that do not spawn. *)
Definition spawn_draws : Draws := mkDraws (dbl 0.1) 1 (dbl 30) 1.
Definition idle_draws : Draws := mkDraws (dbl 0.5) 0 (dbl 30) 0.

(** A one-lane simulation built on [demo_lane], and its state one idle
    tick later: the vehicle at address 0 has left the lane. *)
Definition demo_state : Simulation.t * list Vehicle.t :=
  (Simulation.mk [demo_lane] [0; 1; 2]%nat 4 0, demo_heap).
Definition demo_state_1 : Simulation.t * list Vehicle.t :=
  Eval vm_compute in
    default demo_state (Simulation.update 1 idle_draws demo_state).

(** ** Vocabulary of the further properties *)

(** Every address in the vector of lane [l] is allocated, and the vehicle
    there has its back-reference on [l]. *)
Definition Backref_ok (m : Mem) : Prop :=
  ∀ l lane p, m.1 !! l = Some lane → p ∈ Lane.vehicles lane →
    ∃ v, m.2 !! p = Some v ∧ Vehicle.currentLane v = Some l.

(** What [move] keeps: identity, type and back-reference. *)
Definition same_identity (v v' : Vehicle.t) : Prop :=
  Vehicle.id v' = Vehicle.id v ∧ Vehicle.type v' = Vehicle.type v
  ∧ Vehicle.currentLane v' = Vehicle.currentLane v.

(** Speed and position are not negative. *)
Definition Vehicle_forward (v : Vehicle.t) : Prop :=
  dbl 0 ≤ Vehicle.speed v ∧ dbl 0 ≤ Vehicle.position v.

(** What holds of every state the simulation reaches: valid pointers,
    correct back-references, [Simulation::vehicles] listing every allocated
    address in allocation order, every vehicle of a lane strictly before
    the lane's end, and no negative speed or position. *)
Definition State_inv (st : Simulation.t * list Vehicle.t) : Prop :=
  Mem_ok (Simulation.lanes st.1, st.2)
  ∧ Backref_ok (Simulation.lanes st.1, st.2)
  ∧ Simulation.vehicles st.1 = seq 0 (length st.2)
  ∧ (∀ l lane p, Simulation.lanes st.1 !! l = Some lane → p ∈ Lane.vehicles lane →
       stays (Lane.length lane) st.2 p)
  ∧ Forall Vehicle_forward st.2.

(** 1 when the draws make [update] call [generateVehicle], else 0; and the
    number of such iterations among [k, k+1, ..., k+n-1]. *)
Definition spawn_bit (d : Draws) : nat :=
  if bool_decide (spawnDraw d < dbl 0.3) then 1%nat else 0%nat.

Fixpoint spawn_count (rng : nat → Draws) (k n : nat) : nat :=
  match n with
  | O => O
  | S n' => (spawn_bit (rng k) + spawn_count rng (S k) n')%nat
  end.


(** The light of a lane [n] time units after its construction: 7 units
    RED, 10 GREEN, 3 YELLOW, and again. *)
Definition light_at (n : nat) : TrafficLight.t :=
  let m := (Z.of_nat n mod 20)%Z in
  if bool_decide (m < 7)%Z then TrafficLight.mk RED 10 3 7 m
  else if bool_decide (m < 17)%Z then TrafficLight.mk GREEN 10 3 7 (m - 7)
  else TrafficLight.mk YELLOW 10 3 7 (m - 17).

(** What [display] prints for the state [j + 1] ticks of step 1 after
    [init] (nothing when that state or its display is undefined). *)
Definition frame_after (rng : nat → Draws) (init : Simulation.t * list Vehicle.t)
    (j : nat) : list Event :=
  default [] (Simulation_run 1 (S j) rng 0 init ≫= Simulation.display).

(** * Properties *)

(** ** Machine integers *)

Local Open Scope Z_scope.

Lemma int_wrap_range z : INT_MIN ≤ int_wrap z ≤ INT_MAX.
Proof.
  unfold int_wrap, INT_MIN, INT_MAX.
  pose proof (Z.mod_pos_bound (z + 2 ^ 31) (2 ^ 32)). lia.
Qed.

Lemma int_wrap_small z : INT_MIN ≤ z ≤ INT_MAX → int_wrap z = z.
Proof.
  unfold int_wrap, INT_MIN, INT_MAX. intros Hz.
  rewrite Z.mod_small; lia.
Qed.

Lemma int_add_small a b : INT_MIN ≤ a + b ≤ INT_MAX → int_add a b = a + b.
Proof. apply int_wrap_small. Qed.

(** ** TrafficLight *)

Lemma TrafficLight_update_advance l step :
  dwell l ≤ int_add (TrafficLight.timer l) step →
  TrafficLight.update l step = TrafficLight.set l (next_state (TrafficLight.state l)) 0.
Proof.
  unfold TrafficLight.update, dwell. intros Hd.
  destruct (TrafficLight.state l); simpl in *; rewrite bool_decide_eq_true_2; done.
Qed.

Lemma TrafficLight_update_stay l step :
  int_add (TrafficLight.timer l) step < dwell l →
  TrafficLight.update l step
  = TrafficLight.set l (TrafficLight.state l) (int_add (TrafficLight.timer l) step).
Proof.
  unfold TrafficLight.update, dwell. intros Hd.
  destruct (TrafficLight.state l); simpl in *; rewrite bool_decide_eq_false_2; (done || lia).
Qed.

Lemma TrafficLight_update_state l step :
  TrafficLight.state (TrafficLight.update l step) = TrafficLight.state l
  ∨ TrafficLight.state (TrafficLight.update l step) = next_state (TrafficLight.state l).
Proof.
  destruct (Z_lt_le_dec (int_add (TrafficLight.timer l) step) (dwell l)).
  - left. by rewrite TrafficLight_update_stay.
  - right. by rewrite TrafficLight_update_advance.
Qed.

Lemma light_trace_head l steps :
  ∃ tl, light_trace l steps = TrafficLight.state l :: tl.
Proof. destruct steps; simpl; eauto. Qed.

Lemma light_trace_follows_cycle steps : ∀ l, follows_cycle (light_trace l steps).
Proof.
  induction steps as [|step rest IH]; intros l; simpl.
  - constructor.
  - specialize (IH (TrafficLight.update l step)).
    destruct (light_trace_head (TrafficLight.update l step) rest) as [tl Htl].
    rewrite Htl in IH |- *.
    destruct (TrafficLight_update_state l step) as [H | H]; rewrite H in IH |- *.
    + by apply follows_stay.
    + by apply follows_next.
Qed.

Lemma next_state_neq s : next_state s ≠ s.
Proof. by destruct s. Qed.

(** C3.  [TrafficLight::update] adds [step] to the timer (in [int]
    arithmetic, which is the exact sum whenever that sum is an [int]); the
    state advances to its successor on GREEN -> YELLOW -> RED -> GREEN, with
    the timer reset to 0, exactly when the new timer value has reached the
    dwell duration of the current state, and otherwise the state stays and
    the timer keeps the sum ([set] leaves the durations as they are); along
    every sequence of calls each state is followed by itself or its successor; a
    lane's light has durations 10, 3 and 7, and from GREEN with timer 0 ten
    calls [update(1)] end in YELLOW (the first nine stay GREEN). *)
Theorem C3_light_cycle :
  (∀ l step,
     let tm := int_add (TrafficLight.timer l) step in
     (INT_MIN ≤ TrafficLight.timer l + step ≤ INT_MAX → tm = TrafficLight.timer l + step)
     ∧ (dwell l ≤ tm ↔
        TrafficLight.state (TrafficLight.update l step) = next_state (TrafficLight.state l))
     ∧ (dwell l ≤ tm →
        TrafficLight.update l step = TrafficLight.set l (next_state (TrafficLight.state l)) 0)
     ∧ (tm < dwell l →
        TrafficLight.update l step = TrafficLight.set l (TrafficLight.state l) tm)
     ∧ dwell (TrafficLight.set l GREEN 0) = TrafficLight.greenTime l
     ∧ dwell (TrafficLight.set l YELLOW 0) = TrafficLight.yellowTime l
     ∧ dwell (TrafficLight.set l RED 0) = TrafficLight.redTime l)
  ∧ (∀ l steps, follows_cycle (light_trace l steps))
  ∧ (∀ id len limit,
       let l := Lane.light (Lane.new id len limit) in
       TrafficLight.greenTime l = 10 ∧ TrafficLight.yellowTime l = 3
       ∧ TrafficLight.redTime l = 7)
  ∧ (∀ n, (n < 10)%nat →
       light_updates (TrafficLight.mk GREEN 10 3 7 0) (replicate n 1)
       = TrafficLight.mk GREEN 10 3 7 (Z.of_nat n))
  ∧ light_updates (TrafficLight.mk GREEN 10 3 7 0) (replicate 10 1)
    = TrafficLight.mk YELLOW 10 3 7 0.
Proof.
  split; [|split; [|split; [|split]]].
  - intros l step tm. split; [apply int_add_small|].
    split; [|split; [apply TrafficLight_update_advance|split;
      [apply TrafficLight_update_stay|done]]].
    split; intros H.
    + by rewrite TrafficLight_update_advance.
    + destruct (Z_lt_le_dec tm (dwell l)) as [Hlt|]; [|done].
      rewrite TrafficLight_update_stay in H by done. simpl in H.
      by destruct (next_state_neq (TrafficLight.state l)).
  - intros l steps. apply light_trace_follows_cycle.
  - done.
  - intros n Hn. do 10 (destruct n as [|n]; [reflexivity|]). lia.
  - reflexivity.
Qed.

Lemma C3_light_cycle_witness :
  TrafficLight.update (TrafficLight.mk RED 10 3 7 6) 1 = TrafficLight.mk GREEN 10 3 7 0
  ∧ TrafficLight.update (TrafficLight.mk YELLOW 10 3 7 1) 5 = TrafficLight.mk RED 10 3 7 0
  ∧ TrafficLight.update (TrafficLight.mk GREEN 10 3 7 4) 5 = TrafficLight.mk GREEN 10 3 7 9
  ∧ follows_cycle (light_trace (TrafficLight.new 10 3 7) (replicate 25 1)).
Proof.
  destruct C3_light_cycle as (Hstep & Htrace & _).
  split; [|split; [|split]].
  - destruct (Hstep (TrafficLight.mk RED 10 3 7 6) 1) as (_ & _ & Hadv & _).
    apply Hadv. by vm_compute.
  - destruct (Hstep (TrafficLight.mk YELLOW 10 3 7 1) 5) as (_ & _ & Hadv & _).
    apply Hadv. by vm_compute.
  - destruct (Hstep (TrafficLight.mk GREEN 10 3 7 4) 5) as (_ & _ & _ & Hstay & _).
    apply Hstay. by vm_compute.
  - apply Htrace.
Defined.

(** ** Vehicle::move *)

Local Open Scope Qc_scope.

Lemma Vehicle_move_frozen lanes v timeStep l lane :
  Vehicle.currentLane v = Some l → lanes !! l = Some lane →
  stop_line_rule lane v timeStep →
  Vehicle_move lanes v timeStep = Some (Vehicle.setSpeed v (dbl 0)).
Proof.
  intros Hl Hlane (Hs & Hp & Hc). unfold Vehicle_move. rewrite Hl. simpl.
  rewrite Hlane. simpl. fold (candidate v timeStep).
  unfold TrafficLight.getState. by rewrite !bool_decide_eq_true_2.
Qed.

Lemma Vehicle_move_advance lanes v timeStep l lane :
  Vehicle.currentLane v = Some l → lanes !! l = Some lane →
  ¬ stop_line_rule lane v timeStep →
  Vehicle_move lanes v timeStep = Some (Vehicle.setPosition v (candidate v timeStep)).
Proof.
  intros Hl Hlane Hn. unfold Vehicle_move. rewrite Hl. simpl.
  rewrite Hlane. simpl. fold (candidate v timeStep).
  unfold TrafficLight.getState.
  repeat case_bool_decide; simpl; try done.
  exfalso. by apply Hn.
Qed.

(** What a defined [move] returns, by cases. *)
Lemma Vehicle_move_cases lanes v timeStep v' :
  Vehicle_move lanes v timeStep = Some v' →
  (Vehicle.currentLane v = None ∧ v' = v)
  ∨ (∃ l lane, Vehicle.currentLane v = Some l ∧ lanes !! l = Some lane
       ∧ stop_line_rule lane v timeStep ∧ v' = Vehicle.setSpeed v (dbl 0))
  ∨ (∃ l lane, Vehicle.currentLane v = Some l ∧ lanes !! l = Some lane
       ∧ ¬ stop_line_rule lane v timeStep
       ∧ v' = Vehicle.setPosition v (candidate v timeStep)).
Proof.
  intros Hm. destruct (Vehicle.currentLane v) as [l|] eqn:Hl.
  - destruct (lanes !! l) as [lane|] eqn:Hlane.
    + destruct (decide (stop_line_rule lane v timeStep)) as [Hr|Hr].
      * rewrite (Vehicle_move_frozen _ _ _ _ _ Hl Hlane Hr) in Hm.
        right; left. exists l, lane. naive_solver.
      * rewrite (Vehicle_move_advance _ _ _ _ _ Hl Hlane Hr) in Hm.
        right; right. exists l, lane. naive_solver.
    + unfold Vehicle_move in Hm. rewrite Hl in Hm. simpl in Hm.
      by rewrite Hlane in Hm.
  - unfold Vehicle_move in Hm. rewrite Hl in Hm. left. naive_solver.
Qed.

Lemma Vehicle_move_is_Some lanes v timeStep :
  (∀ l, Vehicle.currentLane v = Some l → (l < length lanes)%nat) →
  is_Some (Vehicle_move lanes v timeStep).
Proof.
  intros Hv. destruct (Vehicle.currentLane v) as [l|] eqn:Hl.
  - destruct (lookup_lt_is_Some_2 lanes l (Hv l eq_refl)) as [lane Hlane].
    destruct (decide (stop_line_rule lane v timeStep)) as [Hr|Hr].
    + by rewrite (Vehicle_move_frozen _ _ _ _ _ Hl Hlane Hr).
    + by rewrite (Vehicle_move_advance _ _ _ _ _ Hl Hlane Hr).
  - unfold Vehicle_move. by rewrite Hl.
Qed.

(** The three outcomes of [H : Vehicle_move _ _ _ = Some _]: no lane,
    frozen by the stop-line rule, moved to the candidate position. *)
Ltac move_cases H :=
  destruct (Vehicle_move_cases _ _ _ _ H)
    as [[_ ->] | [(? & ? & _ & _ & _ & ->) | (? & ? & _ & _ & _ & ->)]].

(** [move] never touches the identity, the type or the back-reference. *)
Lemma Vehicle_move_frame lanes v timeStep v' :
  Vehicle_move lanes v timeStep = Some v' →
  Vehicle.id v' = Vehicle.id v ∧ Vehicle.type v' = Vehicle.type v
  ∧ Vehicle.currentLane v' = Vehicle.currentLane v.
Proof. intros Hm. move_cases Hm; done. Qed.



Lemma candidate_stopped v timeStep :
  Vehicle.speed v = dbl 0 → candidate v timeStep = Vehicle.position v.
Proof. unfold candidate, dbl, Qcdiv. intros ->. ring. Qed.

Lemma dbl_0_le_1000 : dbl 0 ≤ dbl 1000.
Proof. by vm_compute. Qed.


Lemma dbl_0_lt_inv_3600 : dbl 0 < / dbl 3600.
Proof. by vm_compute. Qed.

Lemma candidate_ge v timeStep :
  dbl 0 ≤ Vehicle.speed v → dbl 0 ≤ timeStep → Vehicle.position v ≤ candidate v timeStep.
Proof.
  intros Hs Ht. unfold candidate.
  rewrite <- (Qcplus_0_r (Vehicle.position v)) at 1.
  apply Qcplus_le_mono_l. unfold Qcdiv.
  repeat apply Qcmult_nonneg_nonneg;
    [done | apply dbl_0_le_1000 | apply Qclt_le_weak, dbl_0_lt_inv_3600 | done].
Qed.


Lemma Vehicle_eta v :
  Vehicle.mk (Vehicle.id v) (Vehicle.type v) (Vehicle.speed v) (Vehicle.position v)
    (Vehicle.currentLane v) = v.
Proof. by destruct v. Qed.

(** A vehicle whose speed is 0 is a fixed point of every defined [move]. *)
Lemma Vehicle_move_stopped lanes v timeStep v' :
  Vehicle.speed v = dbl 0 → Vehicle_move lanes v timeStep = Some v' → v' = v.
Proof.
  intros Hs Hm. move_cases Hm.
  - done.
  - unfold Vehicle.setSpeed. rewrite <- Hs. apply Vehicle_eta.
  - unfold Vehicle.setPosition. rewrite candidate_stopped by done. apply Vehicle_eta.
Qed.

Lemma Vehicle_moves_stopped calls : ∀ v l,
  Vehicle.speed v = dbl 0 → Vehicle.currentLane v = Some l →
  Forall (λ c, (l < length c.1)%nat) calls →
  Vehicle_moves v calls = Some v.
Proof.
  induction calls as [|[lanes timeStep] rest IH]; intros v l Hs Hl Hc; simpl; [done|].
  apply Forall_cons in Hc as [Hhd Htl]. simpl in Hhd.
  destruct (Vehicle_move_is_Some lanes v timeStep) as [v' Hv'].
  { intros l' Hl'. congruence. }
  rewrite Hv'. simpl.
  rewrite (Vehicle_move_stopped _ _ _ _ Hs Hv'). by apply (IH v l).
Qed.

Lemma Vehicle_move_monotone lanes v timeStep v' :
  dbl 0 ≤ Vehicle.speed v → dbl 0 ≤ timeStep →
  Vehicle_move lanes v timeStep = Some v' →
  Vehicle.position v ≤ Vehicle.position v' ∧ dbl 0 ≤ Vehicle.speed v'.
Proof.
  intros Hs Ht Hm. move_cases Hm; simpl.
  - done.
  - done.
  - split; [by apply candidate_ge | done].
Qed.


(** ** Lane::update *)

Lemma move_at_length lanes timeStep heap p :
  length (move_at lanes timeStep heap p) = length heap.
Proof.
  unfold move_at. destruct (heap !! p) as [v|]; [|done].
  destruct (Vehicle_move _ _ _); [|done]. apply length_insert.
Qed.

Lemma move_at_other lanes timeStep heap p q :
  p ≠ q → move_at lanes timeStep heap p !! q = heap !! q.
Proof.
  intros Hne. unfold move_at. destruct (heap !! p) as [v|]; [|done].
  destruct (Vehicle_move _ _ _); [|done]. by apply list_lookup_insert_ne.
Qed.

Lemma move_at_same lanes timeStep heap p v v' :
  heap !! p = Some v → Vehicle_move lanes v (double_of_int timeStep) = Some v' →
  move_at lanes timeStep heap p !! p = Some v'.
Proof.
  intros Hp Hm. unfold move_at. rewrite Hp, Hm.
  apply list_lookup_insert_eq. by apply lookup_lt_Some in Hp.
Qed.

Lemma move_at_ok lanes timeStep heap p n :
  Forall (Vehicle_ok n) heap → Forall (Vehicle_ok n) (move_at lanes timeStep heap p).
Proof.
  intros Hok. unfold move_at. destruct (heap !! p) as [v|] eqn:Hp; [|done].
  destruct (Vehicle_move _ _ _) as [v'|] eqn:Hm; [|done].
  apply Forall_insert; [done|].
  intros l Hl. destruct (Vehicle_move_frame _ _ _ _ Hm) as (_ & _ & Hcl).
  rewrite Hcl in Hl. by apply (Forall_lookup_1 _ _ _ _ Hok Hp).
Qed.

Lemma foldl_move_at_length lanes timeStep vs : ∀ heap,
  length (foldl (move_at lanes timeStep) heap vs) = length heap.
Proof.
  induction vs as [|p rest IH]; intros heap; simpl; [done|].
  by rewrite IH, move_at_length.
Qed.

Lemma foldl_move_at_other lanes timeStep vs : ∀ heap q,
  q ∉ vs → foldl (move_at lanes timeStep) heap vs !! q = heap !! q.
Proof.
  induction vs as [|p rest IH]; intros heap q Hq; simpl; [done|].
  apply not_elem_of_cons in Hq as [Hne Hq].
  rewrite IH by done. by apply move_at_other.
Qed.

Lemma foldl_move_at_same lanes timeStep vs : ∀ heap p v v',
  NoDup vs → p ∈ vs → heap !! p = Some v →
  Vehicle_move lanes v (double_of_int timeStep) = Some v' →
  foldl (move_at lanes timeStep) heap vs !! p = Some v'.
Proof.
  induction vs as [|q rest IH]; intros heap p v v' Hnd Hin Hp Hm; simpl.
  { by apply elem_of_nil in Hin. }
  apply NoDup_cons in Hnd as [Hq Hnd].
  apply elem_of_cons in Hin as [-> | Hin].
  - rewrite foldl_move_at_other by done. by apply (move_at_same _ _ _ _ v).
  - apply (IH _ _ v); [done..| |done].
    rewrite move_at_other; [done|]. intros ->. done.
Qed.

Lemma foldl_move_at_ok lanes timeStep n vs : ∀ heap,
  Forall (Vehicle_ok n) heap →
  Forall (Vehicle_ok n) (foldl (move_at lanes timeStep) heap vs).
Proof.
  induction vs as [|p rest IH]; intros heap Hok; simpl; [done|].
  by apply IH, move_at_ok.
Qed.

(** The iterator loop on valid pointers: it is defined, the free store it
    leaves is the left-to-right fold of [move_at] over the vector, the
    elements it keeps form a sublist of the vector, and when no address
    occurs twice they are the ones that [stays] selects in the final store. *)
Lemma Lane_update_loop_spec lanes len timeStep vs : ∀ heap,
  Forall (λ p, (p < length heap)%nat) vs →
  Forall (Vehicle_ok (length lanes)) heap →
  ∃ kept,
    Lane_update_loop lanes len timeStep vs heap
    = Some (kept, foldl (move_at lanes timeStep) heap vs)
    ∧ kept `sublist_of` vs
    ∧ (NoDup vs →
       kept = filter (λ p, stays len (foldl (move_at lanes timeStep) heap vs) p) vs).
Proof.
  induction vs as [|p rest IH]; intros heap Hvs Hok; simpl.
  { exists []. done. }
  apply Forall_cons in Hvs as [Hp Hrest].
  destruct (lookup_lt_is_Some_2 heap p Hp) as [v Hv]. rewrite Hv. simpl.
  destruct (Vehicle_move_is_Some lanes v (double_of_int timeStep)) as [v' Hv'].
  { by apply (Forall_lookup_1 _ _ _ _ Hok Hv). }
  rewrite Hv'. simpl.
  assert (move_at lanes timeStep heap p = <[p:=v']> heap) as Hmv.
  { unfold move_at. by rewrite Hv, Hv'. }
  rewrite Hmv.
  destruct (IH (<[p:=v']> heap)) as (kept & Hloop & Hsub & Hfil).
  { by rewrite length_insert. }
  { rewrite <- Hmv. by apply move_at_ok. }
  rewrite Hloop.
  assert (NoDup (p :: rest) →
          stays len (foldl (move_at lanes timeStep) (<[p:=v']> heap) rest) p
          = bool_decide (Vehicle.position v' < len)) as Hstay.
  { intros Hnd. apply NoDup_cons in Hnd as [Hnotin _]. unfold stays.
    rewrite foldl_move_at_other by done.
    by rewrite list_lookup_insert_eq by done. }
  destruct (decide (len ≤ Vehicle.position v')) as [Hpos|Hpos];
    [rewrite bool_decide_eq_true_2 by done|rewrite bool_decide_eq_false_2 by done];
    simpl.
  - exists kept. split; [done|]. split; [by apply sublist_cons|].
    intros Hnd. rewrite filter_cons_False.
    + apply Hfil. by apply NoDup_cons in Hnd as [_ ?].
    + rewrite (Hstay Hnd), bool_decide_spec. by apply Qcle_not_lt.
  - exists (p :: kept). split; [done|]. split; [by apply sublist_skip|].
    intros Hnd. rewrite filter_cons_True.
    + f_equal. apply Hfil. by apply NoDup_cons in Hnd as [_ ?].
    + rewrite (Hstay Hnd), bool_decide_spec. by apply Qcnot_le_lt.
Qed.

Lemma stays_spec len heap p :
  stays len heap p ↔ ∃ v, heap !! p = Some v ∧ Vehicle.position v < len.
Proof.
  unfold stays. destruct (heap !! p) as [v|].
  - rewrite bool_decide_spec. split.
    + intros Hlt. by exists v.
    + by intros (w & [= <-] & Hlt).
  - split; [done|]. by intros (w & Hw & _).
Qed.

(** [Lane::update] on a lane with valid pointers, as one equation. *)
Lemma Lane_update_spec this timeStep lanes heap lane :
  lanes !! this = Some lane →
  Forall (λ p, (p < length heap)%nat) (Lane.vehicles lane) →
  Forall (Vehicle_ok (length lanes)) heap →
  let light' := TrafficLight.update (Lane.light lane) timeStep in
  let lanes1 := <[this := Lane.set_light lane light']> lanes in
  let heap' := foldl (move_at lanes1 timeStep) heap (Lane.vehicles lane) in
  ∃ kept,
    Lane_update this timeStep (lanes, heap)
    = Some (<[this := Lane.mk (Lane.id lane) (Lane.length lane) (Lane.speedLimit lane)
                        kept light']> lanes, heap')
    ∧ kept `sublist_of` Lane.vehicles lane
    ∧ (NoDup (Lane.vehicles lane) →
       kept = filter (λ p, stays (Lane.length lane) heap' p) (Lane.vehicles lane)).
Proof.
  intros Hlane Hvs Hok light' lanes1 heap'.
  destruct (Lane_update_loop_spec lanes1 (Lane.length lane) timeStep
              (Lane.vehicles lane) heap) as (kept & Hloop & Hsub & Hfil); [done| |].
  { unfold lanes1. by rewrite length_insert. }
  exists kept. split; [|done].
  unfold Lane_update. simpl. rewrite Hlane. simpl.
  fold light'. fold lanes1. rewrite Hloop. simpl.
  unfold lanes1. by rewrite list_insert_insert_eq.
Qed.

(** C5.  On a lane whose vector holds valid addresses, each once,
    [Lane::update] first replaces the light by its [update]; then it moves
    the vehicles of the vector from the first to the last, every [move]
    seeing the light already updated; the vector it leaves is the old one
    filtered, in its order, by "the vehicle's position after its move is
    below the lane's length".  So a vehicle is removed exactly when its
    position after the move is at least the length, the others stay, in
    their order, and vehicles outside the vector and the other lanes are
    untouched. *)
Theorem C5_lane_update this timeStep lanes heap lane :
  lanes !! this = Some lane →
  Lane_ok heap lane →
  Forall (Vehicle_ok (length lanes)) heap →
  let light' := TrafficLight.update (Lane.light lane) timeStep in
  let lanes1 := <[this := Lane.set_light lane light']> lanes in
  let heap' := foldl (move_at lanes1 timeStep) heap (Lane.vehicles lane) in
  let kept := filter (λ p, stays (Lane.length lane) heap' p) (Lane.vehicles lane) in
  Lane_update this timeStep (lanes, heap)
  = Some (<[this := Lane.mk (Lane.id lane) (Lane.length lane) (Lane.speedLimit lane)
                      kept light']> lanes, heap')
  ∧ (∀ p v, p ∈ Lane.vehicles lane → heap !! p = Some v →
       ∃ v', Vehicle_move lanes1 v (double_of_int timeStep) = Some v'
             ∧ heap' !! p = Some v'
             ∧ (p ∈ kept ↔ Vehicle.position v' < Lane.length lane)
             ∧ (p ∉ kept ↔ Lane.length lane ≤ Vehicle.position v'))
  ∧ (∀ p, p ∉ Lane.vehicles lane → heap' !! p = heap !! p)
  ∧ kept `sublist_of` Lane.vehicles lane.
Proof.
  intros Hlane [Hnd Hvs] Hok light' lanes1 heap' kept.
  destruct (Lane_update_spec this timeStep lanes heap lane Hlane Hvs Hok)
    as (kept' & Hup & Hsub & Hfil).
  specialize (Hfil Hnd). fold light' lanes1 heap' kept in Hup, Hfil. subst kept'.
  split; [done|]. split; [|split; [|done]].
  - intros p v Hp Hv.
    destruct (Vehicle_move_is_Some lanes1 v (double_of_int timeStep)) as [v' Hv'].
    { unfold lanes1. rewrite length_insert.
      by apply (Forall_lookup_1 _ _ _ _ Hok Hv). }
    exists v'. split; [done|].
    assert (heap' !! p = Some v') as Hp'
      by by apply (foldl_move_at_same _ _ _ _ _ v).
    split; [done|].
    assert (p ∈ kept ↔ Vehicle.position v' < Lane.length lane) as Hiff.
    { unfold kept. rewrite list_elem_of_filter, stays_spec. split.
      - intros [(w & Hw & Hlt) _]. congruence.
      - intros Hlt. split; [by exists v'|done]. }
    split; [done|]. rewrite Hiff. split.
    + apply Qcnot_lt_le.
    + apply Qcle_not_lt.
  - intros p Hp. by apply foldl_move_at_other.
Qed.

Lemma demo_heap_ok : Forall (Vehicle_ok 1) demo_heap.
Proof.
  unfold demo_heap. repeat apply Forall_cons_2; try apply Forall_nil_2;
    intros l [= <-]; lia.
Qed.

Lemma demo_lane_ok : Lane_ok demo_heap demo_lane.
Proof.
  split; simpl.
  - by apply (bool_decide_unpack _).
  - repeat constructor.
Qed.

Lemma C5_lane_update_witness :
  ∃ lanes' heap',
    Lane_update 0 1 ([demo_lane], demo_heap) = Some (lanes', heap')
    ∧ Lane.vehicles <$> lanes' !! 0%nat = Some [1; 2]%nat
    ∧ Vehicle.speed <$> heap' !! 2%nat = Some (dbl 0).
Proof.
  destruct (C5_lane_update 0 1 [demo_lane] demo_heap demo_lane eq_refl
              demo_lane_ok demo_heap_ok) as [Hup _].
  eexists _, _. split; [exact Hup|]. split; by vm_compute.
Defined.

(** ** Simulation: invariants of a tick *)

Lemma Lane_shrinks_refl lane : Lane_shrinks lane lane.
Proof. by repeat split. Qed.

Lemma Lane_shrinks_trans l1 l2 l3 :
  Lane_shrinks l1 l2 → Lane_shrinks l2 l3 → Lane_shrinks l1 l3.
Proof.
  intros (? & ? & ? & ?) (? & ? & ? & ?).
  repeat split; try congruence. by etrans.
Qed.

Lemma Lane_ok_shrinks heap heap' lane lane' :
  length heap' = length heap → Lane_shrinks lane lane' →
  Lane_ok heap lane → Lane_ok heap' lane'.
Proof.
  intros Hlen (_ & _ & _ & Hsub) [Hnd Hvs]. split.
  - by apply (sublist_NoDup _ (Lane.vehicles lane)).
  - rewrite Forall_forall in Hvs |- *. intros p Hp. rewrite Hlen.
    apply Hvs. by apply (elem_of_sublist (Lane.vehicles lane')).
Qed.

(** [Lane::update] on a well-formed memory: defined, well-formed again, no
    lane or vehicle created or lost, the light of [this] updated and every
    other light as it was. *)
Lemma Lane_update_ok this timeStep lanes heap :
  (this < length lanes)%nat → Mem_ok (lanes, heap) →
  ∃ lanes' heap',
    Lane_update this timeStep (lanes, heap) = Some (lanes', heap')
    ∧ Mem_ok (lanes', heap')
    ∧ length lanes' = length lanes ∧ length heap' = length heap
    ∧ ∀ l lane, lanes !! l = Some lane →
        ∃ lane', lanes' !! l = Some lane' ∧ Lane_shrinks lane lane'
                 ∧ Lane.light lane'
                   = if decide (l = this)
                     then TrafficLight.update (Lane.light lane) timeStep
                     else Lane.light lane.
Proof.
  intros Hthis [Hlanes Hheap]. simpl in Hlanes, Hheap.
  destruct (lookup_lt_is_Some_2 lanes this Hthis) as [lane Hlane].
  destruct (Forall_lookup_1 _ _ _ _ Hlanes Hlane) as [Hnd Hvs].
  destruct (Lane_update_spec this timeStep lanes heap lane Hlane Hvs Hheap)
    as (kept & Hup & Hsub & _).
  eexists _, _. split; [exact Hup|].
  set (lane' := Lane.mk _ _ _ kept _).
  assert (Lane_shrinks lane lane') as Hshr by by repeat split.
  assert (length (foldl (move_at (<[this:=Lane.set_light lane
            (TrafficLight.update (Lane.light lane) timeStep)]> lanes) timeStep)
            heap (Lane.vehicles lane)) = length heap) as Hlen
    by apply foldl_move_at_length.
  split; [|split; [apply length_insert|split; [done|]]].
  - split; simpl.
    + apply Forall_insert.
      * apply (Forall_impl _ _ _ Hlanes). intros lane0.
        apply Lane_ok_shrinks; [done|apply Lane_shrinks_refl].
      * by apply (Lane_ok_shrinks heap _ lane).
    + rewrite length_insert.
      rewrite <- (length_insert lanes this (Lane.set_light lane
                   (TrafficLight.update (Lane.light lane) timeStep))) at 1.
      by apply foldl_move_at_ok; rewrite length_insert.
  - intros l lane0 Hl. destruct (decide (l = this)) as [->|Hne].
    + exists lane'. rewrite list_lookup_insert_eq by done.
      assert (lane0 = lane) as -> by congruence. done.
    + exists lane0. rewrite list_lookup_insert_ne by done.
      split; [done|]. split; [apply Lane_shrinks_refl|done].
Qed.

(** The loop over the lanes [j, j+1, ..., j+n-1]. *)
Lemma update_lanes_ok step n : ∀ j lanes heap,
  (j + n ≤ length lanes)%nat → Mem_ok (lanes, heap) →
  ∃ lanes' heap',
    Simulation.update_lanes (seq j n) step (lanes, heap) = Some (lanes', heap')
    ∧ Mem_ok (lanes', heap')
    ∧ length lanes' = length lanes ∧ length heap' = length heap
    ∧ ∀ l lane, lanes !! l = Some lane →
        ∃ lane', lanes' !! l = Some lane' ∧ Lane_shrinks lane lane'
                 ∧ Lane.light lane'
                   = if decide (j ≤ l < j + n)%nat
                     then TrafficLight.update (Lane.light lane) step
                     else Lane.light lane.
Proof.
  induction n as [|n IH]; intros j lanes heap Hj Hok; simpl.
  - exists lanes, heap. repeat split; try done. apply Hok. apply Hok.
    intros l lane Hl. exists lane. split; [done|]. split; [apply Lane_shrinks_refl|].
    rewrite decide_False; [done|lia].
  - destruct (Lane_update_ok j step lanes heap ltac:(lia) Hok)
      as (lanes1 & heap1 & Hup & Hok1 & Hlen1 & Hhlen1 & Hl1).
    rewrite Hup. simpl.
    destruct (IH (S j) lanes1 heap1 ltac:(lia) Hok1)
      as (lanes2 & heap2 & Hup2 & Hok2 & Hlen2 & Hhlen2 & Hl2).
    exists lanes2, heap2. split; [done|]. split; [done|].
    split; [congruence|]. split; [congruence|].
    intros l lane Hl.
    destruct (Hl1 l lane Hl) as (lane1 & Hlane1 & Hshr1 & Hlight1).
    destruct (Hl2 l lane1 Hlane1) as (lane2 & Hlane2 & Hshr2 & Hlight2).
    exists lane2. split; [done|]. split; [by apply (Lane_shrinks_trans _ lane1)|].
    rewrite Hlight2, Hlight1.
    repeat case_decide; try done; lia.
Qed.

(** ** Simulation::generateVehicle *)

Lemma static_cast_VehicleType_Some n :
  (0 ≤ n ≤ 3)%Z ↔ ∃ ty, static_cast_VehicleType n = Some ty.
Proof.
  split.
  - intros Hn.
    assert (n = 0 ∨ n = 1 ∨ n = 2 ∨ n = 3)%Z as [-> | [-> | [-> | ->]]] by lia;
      simpl; eauto.
  - intros [ty Hty]. destruct n as [|p|p]; [lia| |done].
    do 2 (destruct p as [p|p|]; try done; try lia).
Qed.

Lemma generateVehicle_spec d s heap ty l lane :
  static_cast_VehicleType (typeDraw d) = Some ty →
  laneDraw d = Z.of_nat l →
  Simulation.lanes s !! l = Some lane →
  Simulation.generateVehicle d (s, heap)
  = Some (after_spawn s heap l lane, heap ++ [spawned s ty (speedDraw d) l]).
Proof.
  intros Hty Hl Hlane. unfold Simulation.generateVehicle. simpl.
  rewrite Hty. simpl. rewrite option_guard_True by lia.
  rewrite Hl, Nat2Z.id. unfold Lane_addVehicle. simpl.
  rewrite Hlane. simpl. rewrite list_lookup_middle by done. simpl.
  unfold after_spawn, spawned, Vehicle.setCurrentLane, Vehicle.new. simpl.
  do 2 f_equal.
  rewrite <- (Nat.add_0_r (length heap)) at 1. by rewrite insert_app_r.
Qed.

Lemma generateVehicle_inv d s heap s' heap' :
  Simulation.generateVehicle d (s, heap) = Some (s', heap') →
  ∃ ty l lane,
    static_cast_VehicleType (typeDraw d) = Some ty
    ∧ laneDraw d = Z.of_nat l
    ∧ Simulation.lanes s !! l = Some lane
    ∧ s' = after_spawn s heap l lane
    ∧ heap' = heap ++ [spawned s ty (speedDraw d) l].
Proof.
  intros Hg.
  destruct (static_cast_VehicleType (typeDraw d)) as [ty|] eqn:Hty.
  2:{ unfold Simulation.generateVehicle in Hg. by rewrite Hty in Hg. }
  destruct (decide (0 ≤ laneDraw d)%Z) as [Hnn|Hneg].
  2:{ unfold Simulation.generateVehicle in Hg. rewrite Hty in Hg. simpl in Hg.
      by rewrite option_guard_False in Hg. }
  destruct (Simulation.lanes s !! Z.to_nat (laneDraw d)) as [lane|] eqn:Hlane.
  2:{ unfold Simulation.generateVehicle in Hg. rewrite Hty in Hg. simpl in Hg.
      rewrite option_guard_True in Hg by done.
      unfold Lane_addVehicle in Hg. simpl in Hg. by rewrite Hlane in Hg. }
  assert (laneDraw d = Z.of_nat (Z.to_nat (laneDraw d))) as Hl by lia.
  rewrite (generateVehicle_spec d s heap ty _ lane Hty Hl Hlane) in Hg.
  exists ty, (Z.to_nat (laneDraw d)), lane. naive_solver.
Qed.

Lemma after_spawn_ok s heap ty speed l lane :
  Simulation.lanes s !! l = Some lane →
  Mem_ok (Simulation.lanes s, heap) →
  Mem_ok (Simulation.lanes (after_spawn s heap l lane), heap ++ [spawned s ty speed l]).
Proof.
  intros Hlane [Hlanes Hheap]. simpl in Hlanes, Hheap.
  assert (∀ lane0, Lane_ok heap lane0 →
                   Lane_ok (heap ++ [spawned s ty speed l]) lane0) as Hgrow.
  { intros lane0 [Hnd Hvs]. split; [done|].
    apply (Forall_impl _ _ _ Hvs). intros p Hp. rewrite length_app. simpl. lia. }
  split; simpl.
  - apply Forall_insert; [by apply (Forall_impl _ _ _ Hlanes)|].
    destruct (Forall_lookup_1 _ _ _ _ Hlanes Hlane) as [Hnd Hvs].
    split; simpl.
    + apply NoDup_app. split; [done|]. split; [|apply NoDup_singleton].
      intros p Hp ->%list_elem_of_singleton.
      rewrite Forall_forall in Hvs. specialize (Hvs _ Hp). lia.
    + apply Forall_app. split.
      * apply (Forall_impl _ _ _ Hvs). intros p Hp. rewrite length_app. simpl. lia.
      * apply Forall_singleton. rewrite length_app. simpl. lia.
  - rewrite length_insert. apply Forall_app. split; [done|].
    apply Forall_singleton. intros l' [= <-]. by apply lookup_lt_Some in Hlane.
Qed.

(** ** Simulation::update *)



(** The spawn phase of a tick. *)
Lemma spawn_phase_ok d s heap :
  Mem_ok (Simulation.lanes s, heap) → Draws_ok (length (Simulation.lanes s)) d →
  ∃ s1 heap1,
    (if bool_decide (spawnDraw d < dbl 0.3)
     then Simulation.generateVehicle d (s, heap) else Some (s, heap)) = Some (s1, heap1)
    ∧ Mem_ok (Simulation.lanes s1, heap1)
    ∧ ((spawnDraw d < dbl 0.3
        ∧ ∃ ty l lane,
            static_cast_VehicleType (typeDraw d) = Some ty
            ∧ laneDraw d = Z.of_nat l
            ∧ Simulation.lanes s !! l = Some lane
            ∧ s1 = after_spawn s heap l lane
            ∧ heap1 = heap ++ [spawned s ty (speedDraw d) l])
       ∨ (¬ spawnDraw d < dbl 0.3 ∧ s1 = s ∧ heap1 = heap)).
Proof.
  intros Hok Hd. destruct (decide (spawnDraw d < dbl 0.3)) as [Hlt|Hge].
  - rewrite bool_decide_eq_true_2 by done.
    destruct (Hd Hlt) as (Hty & _ & Hl).
    apply static_cast_VehicleType_Some in Hty as [ty Hty].
    assert (laneDraw d = Z.of_nat (Z.to_nat (laneDraw d))) as Hl' by lia.
    destruct (lookup_lt_is_Some_2 (Simulation.lanes s) (Z.to_nat (laneDraw d)))
      as [lane Hlane]; [lia|].
    eexists _, _.
    split; [by apply (generateVehicle_spec d s heap ty (Z.to_nat (laneDraw d)) lane)|].
    split; [by apply after_spawn_ok|].
    left. split; [done|]. by exists ty, (Z.to_nat (laneDraw d)), lane.
  - rewrite bool_decide_eq_false_2 by done.
    exists s, heap. split; [done|]. split; [done|]. by right.
Qed.

(** A tick on a well-formed state with draws in range. *)
Lemma Simulation_update_ok step d s heap :
  Mem_ok (Simulation.lanes s, heap) → Draws_ok (length (Simulation.lanes s)) d →
  ∃ s' heap',
    Simulation.update step d (s, heap) = Some (s', heap')
    ∧ Mem_ok (Simulation.lanes s', heap')
    ∧ Simulation.simTime s' = int_add (Simulation.simTime s) step
    ∧ length (Simulation.lanes s') = length (Simulation.lanes s)
    ∧ (length heap ≤ length heap')%nat
    ∧ ∀ l lane, Simulation.lanes s !! l = Some lane →
        ∃ lane', Simulation.lanes s' !! l = Some lane'
                 ∧ Lane_tick (length heap) step lane lane'.
Proof.
  intros Hok Hd. unfold Simulation.update. simpl.
  destruct (spawn_phase_ok d (tick_time s step) heap Hok Hd)
    as (s1 & heap1 & Hsp & Hok1 & Hcases).
  unfold tick_time in Hsp. rewrite Hsp. simpl.
  destruct (update_lanes_ok step (length (Simulation.lanes s1)) 0
              (Simulation.lanes s1) heap1 ltac:(lia) Hok1)
    as (lanes' & heap' & Hup & Hok' & Hlen' & Hhlen' & Hl').
  rewrite Hup. simpl. eexists _, _. split; [done|]. simpl.
  split; [done|].
  assert (∀ l lane1, Simulation.lanes s1 !! l = Some lane1 →
            ∃ lane', lanes' !! l = Some lane' ∧ Lane_shrinks lane1 lane'
                     ∧ Lane.light lane' = TrafficLight.update (Lane.light lane1) step)
    as Hl1.
  { intros l lane1 Hl. destruct (Hl' l lane1 Hl) as (lane' & ? & ? & Hlight).
    exists lane'. split; [done|]. split; [done|].
    rewrite Hlight. rewrite decide_True; [done|].
    apply lookup_lt_Some in Hl. lia. }
  destruct Hcases as [(Hlt & ty & l0 & lane0 & Hty & Hl0 & Hlane0 & -> & ->)
                     | (Hge & -> & ->)]; simpl in *.
  - split; [done|]. rewrite length_insert in Hlen'. split; [done|].
    split; [rewrite Hhlen', length_app; lia|].
    intros l lane Hl. destruct (decide (l = l0)) as [->|Hne].
    + assert (lane = lane0) as -> by congruence.
      destruct (Hl1 l0 (Lane.set_vehicles lane0 (Lane.vehicles lane0 ++ [length heap])))
        as (lane' & Hlane' & (? & ? & ? & Hsub) & Hlight).
      { apply list_lookup_insert_eq. by apply lookup_lt_Some in Hl. }
      exists lane'. split; [done|]. repeat split; try done.
      intros p Hp. apply (elem_of_sublist _ _ _ Hp) in Hsub. simpl in Hsub.
      apply elem_of_app in Hsub as [?|?%list_elem_of_singleton]; eauto.
    + destruct (Hl1 l lane) as (lane' & Hlane' & (? & ? & ? & Hsub) & Hlight).
      { by rewrite list_lookup_insert_ne. }
      exists lane'. split; [done|]. repeat split; try done.
      intros p Hp. left. by apply (elem_of_sublist _ _ _ Hp).
  - split; [done|]. split; [done|]. split; [lia|].
    intros l lane Hl.
    destruct (Hl1 l lane Hl) as (lane' & Hlane' & (? & ? & ? & Hsub) & Hlight).
    exists lane'. split; [done|]. repeat split; try done.
    intros p Hp. left. by apply (elem_of_sublist _ _ _ Hp).
Qed.


Lemma setup_Mem_ok : Mem_ok (Simulation.lanes (Simulation.setup Simulation.new), []).
Proof.
  split; simpl; [|done].
  repeat apply Forall_cons_2; try apply Forall_nil_2;
    (split; simpl; [apply NoDup_nil_2|done]).
Qed.

Lemma spawn_draws_ok : Draws_ok 2 spawn_draws.
Proof. intros _. simpl. split; [lia|]. split; [by vm_compute|lia]. Qed.

Lemma idle_draws_ok n : Draws_ok n idle_draws.
Proof. intros H. by vm_compute in H. Qed.


(** ** Simulation::display *)



Lemma double_of_int_ge z (x : double) :
  x ≤ double_of_int z ↔ (Qnum x ≤ z * Zpos (Qden x))%Z.
Proof.
  unfold double_of_int, Qcle. simpl. rewrite Qred_correct.
  unfold Qle. simpl. by rewrite Z.mul_1_r.
Qed.




(** One iteration of the inner loop on a 50-character track. *)
Lemma draw_vehicles_cons len heap p v rest road :
  heap !! p = Some v → length road = 50%nat →
  Simulation.draw_vehicles len heap (p :: rest) road
  = Simulation.draw_vehicles len heap rest
      (if bool_decide (0 ≤ track_index len v ≤ 49)%Z
       then <[Z.to_nat (track_index len v) := string_front (Vehicle.getSymbol v)]> road
       else road).
Proof.
  intros Hp Hlen. simpl. rewrite Hp. simpl. rewrite Hlen.
  change (Z.of_nat 50) with 50%Z. fold (track_index len v).
  unfold string_set. rewrite Hlen. change (Z.of_nat 50) with 50%Z.
  repeat case_bool_decide; simpl; try done; lia.
Qed.

Lemma draw_vehicles_ok len heap vs : ∀ road,
  length road = 50%nat → Forall (λ p, (p < length heap)%nat) vs →
  ∃ road', Simulation.draw_vehicles len heap vs road = Some road'
           ∧ length road' = 50%nat.
Proof.
  induction vs as [|p rest IH]; intros road Hlen Hvs.
  { by exists road. }
  apply Forall_cons in Hvs as [Hp Hrest].
  destruct (lookup_lt_is_Some_2 heap p Hp) as [v Hv].
  rewrite (draw_vehicles_cons _ _ _ v) by done.
  apply IH; [|done]. case_bool_decide; [|done]. by rewrite length_insert.
Qed.

Lemma display_lane_ok heap lane :
  Forall (λ p, (p < length heap)%nat) (Lane.vehicles lane) →
  is_Some (Simulation.display_lane heap lane).
Proof.
  intros Hvs. unfold Simulation.display_lane.
  destruct (draw_vehicles_ok (Lane.length lane) heap (Lane.vehicles lane)
              (replicate 50 "-"%char)) as (road' & -> & _); [done..|].
  by simpl.
Qed.

Lemma display_lanes_ok heap ls :
  Forall (Lane_ok heap) ls → is_Some (Simulation.display_lanes heap ls).
Proof.
  induction ls as [|lane ls IH]; intros Hls; simpl; [done|].
  apply Forall_cons in Hls as [[_ Hlane] Hls].
  destruct (display_lane_ok heap lane Hlane) as [out ->].
  destruct (IH Hls) as [out' ->]. by simpl.
Qed.

Lemma display_ok s heap :
  Mem_ok (Simulation.lanes s, heap) → is_Some (Simulation.display (s, heap)).
Proof.
  intros [Hlanes _]. unfold Simulation.display. simpl in *.
  destruct (display_lanes_ok heap _ Hlanes) as [out ->]. by simpl.
Qed.




(** ** Runs *)

(** An allocated vehicle that is in no lane is in no lane after a tick. *)
Lemma Simulation_update_keeps_out step d s heap s' heap' p :
  Mem_ok (Simulation.lanes s, heap) → Draws_ok (length (Simulation.lanes s)) d →
  Simulation.update step d (s, heap) = Some (s', heap') →
  (p < length heap)%nat → ¬ in_lanes p (Simulation.lanes s) →
  (p < length heap')%nat ∧ ¬ in_lanes p (Simulation.lanes s').
Proof.
  intros Hok Hd Hup Hp Hout.
  destruct (Simulation_update_ok step d s heap Hok Hd)
    as (s2 & heap2 & Hup2 & _ & _ & Hlen & Hhlen & Hl).
  rewrite Hup in Hup2. injection Hup2 as <- <-.
  split; [lia|]. intros (l & lane' & Hlane' & Hin).
  destruct (lookup_lt_is_Some_2 (Simulation.lanes s) l) as [lane Hlane].
  { rewrite <- Hlen. by apply lookup_lt_Some in Hlane'. }
  destruct (Hl l lane Hlane) as (lane2 & Hlane2 & _ & _ & _ & _ & Hvs).
  assert (lane2 = lane') as -> by congruence.
  destruct (Hvs p Hin) as [Hold | ->]; [|lia].
  apply Hout. by exists l, lane.
Qed.

(** Runs from a well-formed state with draws in range. *)
Lemma Simulation_run_ok step n : ∀ rng k s heap,
  Mem_ok (Simulation.lanes s, heap) →
  (∀ i, Draws_ok (length (Simulation.lanes s)) (rng i)) →
  ∃ s' heap',
    Simulation_run step n rng k (s, heap) = Some (s', heap')
    ∧ Mem_ok (Simulation.lanes s', heap')
    ∧ length (Simulation.lanes s') = length (Simulation.lanes s)
    ∧ (length heap ≤ length heap')%nat
    ∧ (INT_MIN ≤ Simulation.simTime s
       ∧ Simulation.simTime s + Z.of_nat n * step ≤ INT_MAX → 0 ≤ step →
       Simulation.simTime s' = Simulation.simTime s + Z.of_nat n * step)%Z
    ∧ (∀ l lane, Simulation.lanes s !! l = Some lane →
         ∃ lane', Simulation.lanes s' !! l = Some lane'
                  ∧ Lane.id lane' = Lane.id lane
                  ∧ Lane.length lane' = Lane.length lane
                  ∧ Lane.light lane' = light_updates (Lane.light lane) (replicate n step))
    ∧ (∀ p, (p < length heap)%nat → ¬ in_lanes p (Simulation.lanes s) →
            ¬ in_lanes p (Simulation.lanes s')).
Proof.
  induction n as [|n IH]; intros rng k s heap Hok Hd; simpl.
  { exists s, heap. repeat split; try done; try apply Hok.
    - intros _ _. lia.
    - intros l lane Hl. by exists lane. }
  destruct (Simulation_update_ok step (rng k) s heap Hok (Hd k))
    as (s1 & heap1 & Hup & Hok1 & Ht1 & Hlen1 & Hhlen1 & Hl1).
  rewrite Hup. simpl.
  destruct (IH rng (S k) s1 heap1 Hok1) as
    (s2 & heap2 & Hrun & Hok2 & Hlen2 & Hhlen2 & Ht2 & Hl2 & Hout2).
  { by rewrite Hlen1. }
  exists s2, heap2. split; [done|]. split; [done|].
  split; [congruence|]. split; [lia|]. split; [|split].
  - intros Hrange Hstep.
    assert (0 ≤ Z.of_nat n * step)%Z by lia.
    rewrite int_add_small in Ht1 by lia.
    rewrite Ht2 by lia. lia.
  - intros l lane Hl.
    destruct (Hl1 l lane Hl) as (lane1 & Hlane1 & Hid1 & Hlg1 & _ & Hlight1 & _).
    destruct (Hl2 l lane1 Hlane1) as (lane2 & Hlane2 & Hid2 & Hlg2 & Hlight2).
    exists lane2. split; [done|]. split; [congruence|]. split; [congruence|].
    by rewrite Hlight2, Hlight1.
  - intros p Hp Hout.
    destruct (Simulation_update_keeps_out step (rng k) s heap s1 heap1 p
                Hok (Hd k) Hup Hp Hout) as [Hp1 Hout1].
    by apply Hout2.
Qed.

(** [display] reads the free store only at the addresses held by lanes. *)
Lemma draw_vehicles_ext len heap1 heap2 vs :
  (∀ p, p ∈ vs → heap1 !! p = heap2 !! p) →
  ∀ road, Simulation.draw_vehicles len heap1 vs road
          = Simulation.draw_vehicles len heap2 vs road.
Proof.
  induction vs as [|p rest IH]; intros Hext road; simpl; [done|].
  rewrite (Hext p) by apply list_elem_of_here.
  destruct (heap2 !! p) as [v|]; simpl; [|done].
  match goal with |- context [mbind _ ?m] => destruct m as [road'|] end; simpl; [|done].
  apply IH. intros q Hq. apply Hext. by apply list_elem_of_further.
Qed.

Lemma display_lanes_ext heap1 heap2 ls :
  (∀ lane p, lane ∈ ls → p ∈ Lane.vehicles lane → heap1 !! p = heap2 !! p) →
  Simulation.display_lanes heap1 ls = Simulation.display_lanes heap2 ls.
Proof.
  induction ls as [|lane ls IH]; intros Hext; simpl; [done|].
  unfold Simulation.display_lane.
  rewrite (draw_vehicles_ext _ heap1 heap2).
  2:{ intros p Hp. apply (Hext lane); [apply list_elem_of_here|done]. }
  rewrite IH; [done|].
  intros lane' p Hlane'. apply Hext. by apply list_elem_of_further.
Qed.

Lemma display_ext s heap1 heap2 :
  (∀ p, in_lanes p (Simulation.lanes s) → heap1 !! p = heap2 !! p) →
  Simulation.display (s, heap1) = Simulation.display (s, heap2).
Proof.
  intros Hext. unfold Simulation.display. simpl.
  rewrite (display_lanes_ext heap1 heap2); [done|].
  intros lane p Hlane Hp. apply Hext.
  apply list_elem_of_lookup in Hlane as [l Hl]. by exists l, lane.
Qed.

(** C7.  Take a well-formed state, a tick that removes the vehicle at
    address [p] from the lanes (it is in a lane's vector before the tick
    and in none after), and any number of further ticks.  Then the run is
    defined, [p] is in no lane's vector at its end, [display] succeeds
    there and prints the same whatever the free store holds at addresses
    that are in no lane, in particular at [p]: the removed vehicle is not
    drawn again and is never added back. *)
Theorem C7_removed_never_rendered step rng k s heap s1 heap1 p :
  Mem_ok (Simulation.lanes s, heap) →
  (∀ i, Draws_ok (length (Simulation.lanes s)) (rng i)) →
  Simulation.update step (rng k) (s, heap) = Some (s1, heap1) →
  in_lanes p (Simulation.lanes s) → ¬ in_lanes p (Simulation.lanes s1) →
  ∀ n, ∃ s2 heap2,
    Simulation_run step n rng (S k) (s1, heap1) = Some (s2, heap2)
    ∧ ¬ in_lanes p (Simulation.lanes s2)
    ∧ is_Some (Simulation.display (s2, heap2))
    ∧ (∀ h, (∀ q, in_lanes q (Simulation.lanes s2) → h !! q = heap2 !! q) →
            Simulation.display (s2, h) = Simulation.display (s2, heap2))
    ∧ (∀ v, Simulation.display (s2, <[p := v]> heap2) = Simulation.display (s2, heap2)).
Proof.
  intros Hok Hd Hup Hin Hout n.
  destruct (Simulation_update_ok step (rng k) s heap Hok (Hd k))
    as (s1' & heap1' & Hup' & Hok1 & _ & Hlen1 & Hhlen1 & _).
  rewrite Hup in Hup'. injection Hup' as <- <-.
  assert (p < length heap)%nat as Hp.
  { destruct Hin as (l & lane & Hl & Hpl). destruct Hok as [Hlanes _].
    destruct (Forall_lookup_1 _ _ _ _ Hlanes Hl) as [_ Hvs].
    rewrite Forall_forall in Hvs. by apply Hvs. }
  destruct (Simulation_run_ok step n rng (S k) s1 heap1 Hok1)
    as (s2 & heap2 & Hrun & Hok2 & _ & _ & _ & _ & Hkeep).
  { by rewrite Hlen1. }
  exists s2, heap2. split; [done|].
  assert (¬ in_lanes p (Simulation.lanes s2)) as Hout2 by (apply Hkeep; [lia|done]).
  split; [done|]. split; [by apply display_ok|]. split.
  - intros h Hh. by apply display_ext.
  - intros v. apply display_ext. intros q Hq.
    apply list_lookup_insert_ne. intros ->. by apply Hout2.
Qed.

Lemma demo_state_ok : Mem_ok (Simulation.lanes demo_state.1, demo_state.2).
Proof.
  split; simpl.
  - apply Forall_singleton, demo_lane_ok.
  - apply demo_heap_ok.
Qed.

Lemma demo_state_update :
  Simulation.update 1 idle_draws demo_state = Some demo_state_1.
Proof. by vm_compute. Qed.

Lemma C7_removed_never_rendered_witness :
  ∃ s2 heap2,
    Simulation_run 1 5 (λ _, idle_draws) 1 demo_state_1 = Some (s2, heap2)
    ∧ ¬ in_lanes 0 (Simulation.lanes s2)
    ∧ is_Some (Simulation.display (s2, heap2))
    ∧ (∀ h, (∀ q, in_lanes q (Simulation.lanes s2) → h !! q = heap2 !! q) →
            Simulation.display (s2, h) = Simulation.display (s2, heap2))
    ∧ (∀ v, Simulation.display (s2, <[0%nat := v]> heap2)
            = Simulation.display (s2, heap2)).
Proof.
  apply (C7_removed_never_rendered 1 (λ _, idle_draws) 0 demo_state.1 demo_state.2
           demo_state_1.1 demo_state_1.2 0 demo_state_ok
           (λ _, idle_draws_ok 1) demo_state_update).
  - exists 0%nat, demo_lane. split; [done|]. apply list_elem_of_here.
  - intros (l & lane & Hl & Hin). destruct l as [|l]; [|done].
    injection Hl as <-. simpl in Hin.
    do 2 (apply elem_of_cons in Hin as [Hin|Hin]; [done|]).
    by apply elem_of_nil in Hin.
Defined.

(** ** main *)

Lemma count_clears_app evs1 evs2 :
  count_clears (evs1 ++ evs2) = (count_clears evs1 + count_clears evs2)%nat.
Proof. unfold count_clears. by rewrite filter_app, length_app. Qed.

Lemma count_sleeps_app evs1 evs2 :
  count_sleeps (evs1 ++ evs2) = (count_sleeps evs1 + count_sleeps evs2)%nat.
Proof. unfold count_sleeps. by rewrite filter_app, length_app. Qed.

Lemma count_clears_cons e evs :
  count_clears (e :: evs)
  = ((if decide (e = Clear) then 1 else 0) + count_clears evs)%nat.
Proof. unfold count_clears. rewrite filter_cons. by case_decide. Qed.

Lemma count_sleeps_cons e evs :
  count_sleeps (e :: evs)
  = ((if decide (∃ ms, e = Sleep ms) then 1 else 0) + count_sleeps evs)%nat.
Proof. unfold count_sleeps. rewrite filter_cons. by case_decide. Qed.

(** A frame of [display] clears the screen once and never sleeps. *)
Lemma display_lanes_events heap ls out :
  Simulation.display_lanes heap ls = Some out →
  count_clears out = 0%nat ∧ count_sleeps out = 0%nat.
Proof.
  revert out. induction ls as [|lane ls IH]; intros out Hout; simpl in Hout.
  { by injection Hout as <-. }
  unfold Simulation.display_lane in Hout.
  destruct (Simulation.draw_vehicles _ _ _ _) as [road|]; simpl in Hout; [|done].
  destruct (Simulation.display_lanes heap ls) as [out'|]; simpl in Hout; [|done].
  injection Hout as <-. destruct (IH out' eq_refl) as [Hc Hs].
  split.
  - by rewrite !count_clears_cons, Hc.
  - by rewrite !count_sleeps_cons, Hs.
Qed.

Lemma display_events st frame :
  Simulation.display st = Some frame →
  count_clears frame = 1%nat ∧ count_sleeps frame = 0%nat.
Proof.
  unfold Simulation.display. intros Hd.
  destruct (Simulation.display_lanes _ _) as [out|] eqn:Hout; simpl in Hd; [|done].
  injection Hd as <-. destruct (display_lanes_events _ _ _ Hout) as [Hc Hs].
  split.
  - by rewrite !count_clears_cons, Hc.
  - by rewrite !count_sleeps_cons, Hs.
Qed.

(** The loop of [main] from iteration [k] on, with enough fuel: it runs the
    remaining [60 - k] iterations and returns. *)
Lemma main_loop_returns fuel : ∀ rng k s heap out,
  Mem_ok (Simulation.lanes s, heap) →
  (∀ i, Draws_ok (length (Simulation.lanes s)) (rng i)) →
  Simulation.simTime s = Z.of_nat k → (k ≤ 60)%nat → (60 - k ≤ fuel)%nat →
  ∃ s' heap' frames,
    main_loop fuel rng k (s, heap) out = Returned (60%nat, (s', heap'), out ++ frames)
    ∧ Simulation_run 1 (60 - k) rng k (s, heap) = Some (s', heap')
    ∧ Simulation.simTime s' = 60%Z
    ∧ count_clears frames = (60 - k)%nat ∧ count_sleeps frames = (60 - k)%nat.
Proof.
  induction fuel as [|fuel IH]; intros rng k s heap out Hok Hd Ht Hk Hfuel.
  - assert (k = 60)%nat as -> by lia. exists s, heap, [].
    simpl. unfold Simulation.isRunning. simpl.
    rewrite bool_decide_eq_false_2 by lia. by rewrite app_nil_r.
  - destruct (decide (k = 60)%nat) as [->|Hne].
    { exists s, heap, []. simpl. unfold Simulation.isRunning. simpl.
      rewrite bool_decide_eq_false_2 by lia. by rewrite app_nil_r. }
    simpl. unfold Simulation.isRunning at 1. simpl.
    rewrite bool_decide_eq_true_2 by lia.
    destruct (Simulation_update_ok 1 (rng k) s heap Hok (Hd k))
      as (s1 & heap1 & Hup & Hok1 & Ht1 & Hlen1 & _).
    rewrite Hup.
    destruct (display_ok s1 heap1 Hok1) as [frame Hframe]. rewrite Hframe.
    rewrite int_add_small in Ht1 by (unfold INT_MIN, INT_MAX; lia).
    destruct (IH rng (S k) s1 heap1 (out ++ frame ++ [Sleep 500]) Hok1)
      as (s' & heap' & frames & Hloop & Hrun & Ht' & Hc & Hs); [|lia..|].
    { by rewrite Hlen1. }
    exists s', heap', (frame ++ [Sleep 500] ++ frames).
    destruct (display_events _ _ Hframe) as [Hc1 Hs1].
    split; [by rewrite Hloop, <- !app_assoc|]. split.
    { replace (60 - k)%nat with (S (60 - S k)) by lia. simpl. by rewrite Hup. }
    split; [done|].
    rewrite !count_clears_app, !count_sleeps_app, Hc, Hs, Hc1, Hs1.
    change (count_clears [Sleep 500]) with 0%nat.
    change (count_sleeps [Sleep 500]) with 1%nat. lia.
Qed.

(** With too little fuel the loop is cut short. *)
Lemma main_loop_out_of_fuel fuel : ∀ rng k s heap out,
  Mem_ok (Simulation.lanes s, heap) →
  (∀ i, Draws_ok (length (Simulation.lanes s)) (rng i)) →
  Simulation.simTime s = Z.of_nat k → (fuel < 60 - k)%nat →
  main_loop fuel rng k (s, heap) out = OutOfFuel.
Proof.
  induction fuel as [|fuel IH]; intros rng k s heap out Hok Hd Ht Hfuel;
    simpl; unfold Simulation.isRunning at 1; simpl;
    rewrite bool_decide_eq_true_2 by lia; [done|].
  destruct (Simulation_update_ok 1 (rng k) s heap Hok (Hd k))
    as (s1 & heap1 & Hup & Hok1 & Ht1 & Hlen1 & _).
  rewrite Hup.
  destruct (display_ok s1 heap1 Hok1) as [frame Hframe]. rewrite Hframe.
  rewrite int_add_small in Ht1 by (unfold INT_MIN, INT_MAX; lia).
  apply IH; [done| |lia..]. by rewrite Hlen1.
Qed.

(** Every state the program reaches is well formed. *)
Lemma reachable_Mem_ok n rng :
  (∀ i, Draws_ok 2 (rng i)) →
  ∃ s heap,
    Simulation_run 1 n rng 0 (Simulation.setup Simulation.new, []) = Some (s, heap)
    ∧ Mem_ok (Simulation.lanes s, heap)
    ∧ length (Simulation.lanes s) = 2%nat.
Proof.
  intros Hd.
  destruct (Simulation_run_ok 1 n rng 0 (Simulation.setup Simulation.new) []
              setup_Mem_ok Hd) as (s & heap & Hrun & Hok & Hlen & _).
  by exists s, heap.
Qed.

(** C6.  With [step = 1] and draws in range, the elapsed time after [n]
    ticks is [n]; [isRunning] holds before each of the first 60 iterations
    and fails once the time is 60.  So the loop of [main] runs exactly 60
    iterations (60 screen clears, 60 sleeps) and stops; [main] then prints
    the termination line and returns 0.  Any fuel of at least 60 gives this
    result, and less fuel does not reach the end of the loop. *)
Theorem C6_main_terminates rng :
  (∀ i, Draws_ok 2 (rng i)) →
  (∀ n, (n < 60)%nat →
     ∃ s heap, Simulation_run 1 n rng 0 (Simulation.setup Simulation.new, [])
               = Some (s, heap)
               ∧ Simulation.simTime s = Z.of_nat n
               ∧ Simulation.isRunning s = true)
  ∧ (∀ fuel, (60 ≤ fuel)%nat →
       ∃ s heap frames,
         Simulation_run 1 60 rng 0 (Simulation.setup Simulation.new, []) = Some (s, heap)
         ∧ Simulation.simTime s = 60%Z
         ∧ Simulation.isRunning s = false
         ∧ main_loop fuel rng 0 (Simulation.setup Simulation.new, []) []
           = Returned (60%nat, (s, heap), frames)
         ∧ count_clears frames = 60%nat ∧ count_sleeps frames = 60%nat
         ∧ main fuel rng = Returned (frames ++ [Print "Simulation ended.
"], 0%Z))
  ∧ (∀ fuel, (fuel < 60)%nat → main fuel rng = OutOfFuel).
Proof.
  intros Hd. split; [|split].
  - intros n Hn.
    destruct (Simulation_run_ok 1 n rng 0 (Simulation.setup Simulation.new) []
                setup_Mem_ok Hd) as (s & heap & Hrun & _ & _ & _ & Ht & _).
    exists s, heap. split; [done|].
    assert (Simulation.simTime s = Z.of_nat n) as Hs.
    { rewrite Ht; simpl; unfold INT_MIN, INT_MAX; lia. }
    split; [done|]. unfold Simulation.isRunning.
    rewrite bool_decide_eq_true_2; [done|lia].
  - intros fuel Hfuel.
    destruct (main_loop_returns fuel rng 0 (Simulation.setup Simulation.new) [] []
                setup_Mem_ok Hd eq_refl ltac:(lia) ltac:(lia))
      as (s & heap & frames & Hloop & Hrun & Ht & Hc & Hs).
    exists s, heap, frames. simpl in Hloop.
    split; [done|]. split; [done|]. split.
    { unfold Simulation.isRunning. rewrite bool_decide_eq_false_2; [done|lia]. }
    split; [done|]. split; [done|]. split; [done|].
    unfold main. by rewrite Hloop.
  - intros fuel Hfuel. unfold main.
    by rewrite (main_loop_out_of_fuel fuel rng 0 (Simulation.setup Simulation.new) [] []
                  setup_Mem_ok Hd eq_refl ltac:(lia)).
Qed.

Lemma C6_main_terminates_witness :
  (∃ frames, main 60 (λ _, spawn_draws) = Returned (frames ++ [Print "Simulation ended.
"], 0%Z))
  ∧ main 59 (λ _, spawn_draws) = OutOfFuel.
Proof.
  destruct (C6_main_terminates (λ _, spawn_draws) (λ _, spawn_draws_ok))
    as (_ & Hret & Hout).
  split.
  - destruct (Hret 60%nat ltac:(lia)) as (s & heap & frames & _ & _ & _ & _ & _ & _ & Hm).
    by exists frames.
  - apply Hout. lia.
Defined.

(** ** The lights of a simulation *)

Lemma red_light_updates n :
  (n ≤ 7)%nat →
  light_updates (TrafficLight.new 10 3 7) (replicate n 1%Z)
  = if decide (n = 7)%nat then TrafficLight.mk GREEN 10 3 7 0
    else TrafficLight.mk RED 10 3 7 (Z.of_nat n).
Proof. intros Hn. do 8 (destruct n as [|n]; [reflexivity|]). lia. Qed.

(** C10.  A [TrafficLight] is constructed RED with timer 0 and the given
    durations; the light of a new [Lane] is [TrafficLight(10, 3, 7)]; after
    [setup] there are two lanes, both RED; and along every run with
    [step = 1] and draws in range both lights are RED after each of the
    first six ticks (their timers counting the ticks) and GREEN, with timer
    0, after the seventh. *)
Theorem C10_lights_start_red :
  (∀ g y r, TrafficLight.new g y r = TrafficLight.mk RED g y r 0)
  ∧ (∀ id len limit, Lane.light (Lane.new id len limit) = TrafficLight.new 10 3 7)
  ∧ Lane.light <$> Simulation.lanes (Simulation.setup Simulation.new)
    = [TrafficLight.mk RED 10 3 7 0; TrafficLight.mk RED 10 3 7 0]
  ∧ (∀ rng, (∀ i, Draws_ok 2 (rng i)) →
       ∀ n, (n ≤ 7)%nat →
         ∃ s heap,
           Simulation_run 1 n rng 0 (Simulation.setup Simulation.new, []) = Some (s, heap)
           ∧ Lane.light <$> Simulation.lanes s
             = if decide (n = 7)%nat
               then [TrafficLight.mk GREEN 10 3 7 0; TrafficLight.mk GREEN 10 3 7 0]
               else [TrafficLight.mk RED 10 3 7 (Z.of_nat n);
                     TrafficLight.mk RED 10 3 7 (Z.of_nat n)]).
Proof.
  split; [done|]. split; [done|]. split; [done|].
  intros rng Hd n Hn.
  destruct (Simulation_run_ok 1 n rng 0 (Simulation.setup Simulation.new) []
              setup_Mem_ok Hd) as (s & heap & Hrun & _ & Hlen & _ & _ & Hl & _).
  exists s, heap. split; [done|].
  destruct (Hl 0%nat _ eq_refl) as (lane0 & Hlane0 & _ & _ & Hlight0).
  destruct (Hl 1%nat _ eq_refl) as (lane1 & Hlane1 & _ & _ & Hlight1).
  simpl in Hlight0, Hlight1, Hlen.
  rewrite red_light_updates in Hlight0, Hlight1 by done.
  destruct (Simulation.lanes s) as [|a [|b [|c ls]]]; try done.
  injection Hlane0 as ->. injection Hlane1 as ->. simpl.
  rewrite Hlight0, Hlight1. by case_decide.
Qed.

Lemma C10_lights_start_red_witness :
  (∃ s heap,
     Simulation_run 1 6 (λ _, spawn_draws) 0 (Simulation.setup Simulation.new, [])
     = Some (s, heap)
     ∧ Lane.light <$> Simulation.lanes s
       = [TrafficLight.mk RED 10 3 7 6; TrafficLight.mk RED 10 3 7 6])
  ∧ (∃ s heap,
       Simulation_run 1 7 (λ _, spawn_draws) 0 (Simulation.setup Simulation.new, [])
       = Some (s, heap)
       ∧ Lane.light <$> Simulation.lanes s
         = [TrafficLight.mk GREEN 10 3 7 0; TrafficLight.mk GREEN 10 3 7 0]).
Proof.
  destruct C10_lights_start_red as (_ & _ & _ & Hrun).
  split.
  - apply (Hrun (λ _, spawn_draws) (λ _, spawn_draws_ok) 6%nat). lia.
  - apply (Hrun (λ _, spawn_draws) (λ _, spawn_draws_ok) 7%nat). lia.
Defined.

(** ** How a vehicle changes along a run *)

Lemma Lane_update_loop_heap lanes len timeStep vs : ∀ heap kept heap',
  Lane_update_loop lanes len timeStep vs heap = Some (kept, heap') →
  heap' = foldl (move_at lanes timeStep) heap vs.
Proof.
  induction vs as [|p rest IH]; intros heap kept heap' Hloop; simpl in Hloop.
  { by injection Hloop as _ <-. }
  destruct (heap !! p) as [v|] eqn:Hv; simpl in Hloop; [|done].
  destruct (Vehicle_move lanes v (double_of_int timeStep)) as [v'|] eqn:Hv';
    simpl in Hloop; [|done].
  simpl. unfold move_at at 2. rewrite Hv, Hv'.
  destruct (bool_decide (len ≤ Vehicle.position v')).
  - by apply (IH _ kept).
  - destruct (Lane_update_loop lanes len timeStep rest (<[p:=v']> heap))
      as [[kept1 heap1]|] eqn:Hrest; simpl in Hloop; [|done].
    injection Hloop as _ <-. by apply (IH _ kept1).
Qed.

Lemma Lane_update_heap this timeStep lanes heap lanes' heap' :
  Lane_update this timeStep (lanes, heap) = Some (lanes', heap') →
  ∃ lanes1, heap' = foldl (move_at lanes1 timeStep) heap
                      (default [] (Lane.vehicles <$> lanes !! this)).
Proof.
  unfold Lane_update. simpl. intros Hup.
  destruct (lanes !! this) as [lane|]; simpl in Hup; [|done].
  match type of Hup with
  | context [Lane_update_loop ?ls ?len ?ts ?vs ?h] =>
    destruct (Lane_update_loop ls len ts vs h) as [[kept heap1]|] eqn:Hloop;
      simpl in Hup; [|done]
  end.
  injection Hup as _ <-. eexists. exact (Lane_update_loop_heap _ _ _ _ _ _ _ Hloop).
Qed.

Section cell_evolution.
(** A relation between the values of one vehicle object at two moments
    that every defined [move] with time step [step] respects. *)
Variable R : Vehicle.t → Vehicle.t → Prop.
Variable step : Z.
Hypothesis R_refl : ∀ v, R v v.
Hypothesis R_trans : ∀ v1 v2 v3, R v1 v2 → R v2 v3 → R v1 v3.
Hypothesis R_move : ∀ lanes v v',
  Vehicle_move lanes v (double_of_int step) = Some v' → R v v'.

Lemma move_at_evolves lanes heap q p v :
  heap !! p = Some v → ∃ v', move_at lanes step heap q !! p = Some v' ∧ R v v'.
Proof using R_refl R_move.
  intros Hp. destruct (decide (q = p)) as [->|Hne].
  - unfold move_at. rewrite Hp.
    destruct (Vehicle_move lanes v (double_of_int step)) as [v'|] eqn:Hm.
    + exists v'. split; [|by apply (R_move lanes)].
      apply list_lookup_insert_eq. by apply lookup_lt_Some in Hp.
    + by exists v.
  - exists v. by rewrite move_at_other.
Qed.

Lemma foldl_move_at_evolves lanes vs : ∀ heap p v,
  heap !! p = Some v →
  ∃ v', foldl (move_at lanes step) heap vs !! p = Some v' ∧ R v v'.
Proof using R_refl R_trans R_move.
  induction vs as [|q rest IH]; intros heap p v Hp; simpl.
  { by exists v. }
  destruct (move_at_evolves lanes heap q p v Hp) as (v1 & Hv1 & HR1).
  destruct (IH _ p v1 Hv1) as (v2 & Hv2 & HR2).
  exists v2. split; [done|]. by apply (R_trans _ v1).
Qed.

Lemma update_lanes_evolves ls : ∀ lanes heap lanes' heap' p v,
  Simulation.update_lanes ls step (lanes, heap) = Some (lanes', heap') →
  heap !! p = Some v → ∃ v', heap' !! p = Some v' ∧ R v v'.
Proof using R_refl R_trans R_move.
  induction ls as [|l ls IH]; intros lanes heap lanes' heap' p v Hup Hp;
    simpl in Hup.
  { injection Hup as _ <-. by exists v. }
  destruct (Lane_update l step (lanes, heap)) as [[lanes1 heap1]|] eqn:Hl;
    simpl in Hup; [|done].
  destruct (Lane_update_heap _ _ _ _ _ _ Hl) as [lanes0 ->].
  destruct (foldl_move_at_evolves lanes0
              (default [] (Lane.vehicles <$> lanes !! l)) heap p v Hp)
    as (v1 & Hv1 & HR1).
  destruct (IH _ _ _ _ p v1 Hup Hv1) as (v2 & Hv2 & HR2).
  exists v2. split; [done|]. by apply (R_trans _ v1).
Qed.

Lemma Simulation_update_evolves d s heap s' heap' p v :
  Simulation.update step d (s, heap) = Some (s', heap') →
  heap !! p = Some v → ∃ v', heap' !! p = Some v' ∧ R v v'.
Proof using R_refl R_trans R_move.
  unfold Simulation.update. simpl. intros Hup Hp.
  match type of Hup with
  | context [if ?b then ?x else ?y] =>
    destruct (if b then x else y) as [[s1 heap1]|] eqn:Hsp; simpl in Hup; [|done]
  end.
  destruct (Simulation.update_lanes _ _ _) as [[lanes2 heap2]|] eqn:Hlanes;
    simpl in Hup; [|done].
  injection Hup as _ <-.
  assert (heap1 !! p = Some v) as Hp1.
  { destruct (bool_decide (spawnDraw d < dbl 0.3)).
    - apply generateVehicle_inv in Hsp as (ty & l & lane & _ & _ & _ & _ & ->).
      by apply lookup_app_l_Some.
    - by injection Hsp as _ <-. }
  by apply (update_lanes_evolves _ _ _ _ _ _ _ Hlanes).
Qed.

Lemma Simulation_run_evolves n : ∀ rng k s heap s' heap' p v,
  Simulation_run step n rng k (s, heap) = Some (s', heap') →
  heap !! p = Some v → ∃ v', heap' !! p = Some v' ∧ R v v'.
Proof using R_refl R_trans R_move.
  induction n as [|n IH]; intros rng k s heap s' heap' p v Hrun Hp; simpl in Hrun.
  { injection Hrun as _ <-. by exists v. }
  destruct (Simulation.update step (rng k) (s, heap)) as [[s1 heap1]|] eqn:Hup;
    simpl in Hrun; [|done].
  destruct (Simulation_update_evolves _ _ _ _ _ p v Hup Hp) as (v1 & Hv1 & HR1).
  destruct (IH _ _ _ _ _ _ p v1 Hrun Hv1) as (v2 & Hv2 & HR2).
  exists v2. split; [done|]. by apply (R_trans _ v1).
Qed.
End cell_evolution.

(** ** Stopped vehicles and monotone positions along runs *)

Lemma double_of_int_nonneg step : (0 ≤ step)%Z → dbl 0 ≤ double_of_int step.
Proof.
  intros Hs. apply double_of_int_ge. simpl. lia.
Qed.

(** C2.  Once the stop-line rule has set a vehicle's speed to 0 (its
    position unchanged on that call), every later call of [move] returns the
    vehicle as it is, speed 0 and the same position, whatever the lanes'
    lights show at those calls and whatever the time steps are.  In the
    simulation: a stopped vehicle in the free store is the same object,
    unchanged, after any number of ticks of any step. *)
Theorem C2_stopped_forever lanes v timeStep l lane :
  Vehicle.currentLane v = Some l → lanes !! l = Some lane →
  stop_line_rule lane v timeStep →
  ∃ v1, Vehicle_move lanes v timeStep = Some v1
        ∧ Vehicle.speed v1 = dbl 0
        ∧ Vehicle.position v1 = Vehicle.position v
        ∧ (∀ calls, Forall (λ c, (l < length c.1)%nat) calls →
                    Vehicle_moves v1 calls = Some v1)
        ∧ (∀ step rng k s heap p n,
             Mem_ok (Simulation.lanes s, heap) →
             (∀ i, Draws_ok (length (Simulation.lanes s)) (rng i)) →
             heap !! p = Some v1 →
             ∃ s' heap', Simulation_run step n rng k (s, heap) = Some (s', heap')
                         ∧ heap' !! p = Some v1).
Proof.
  intros Hl Hlane Hr. exists (Vehicle.setSpeed v (dbl 0)).
  split; [by apply (Vehicle_move_frozen _ _ _ l lane)|].
  split; [done|]. split; [done|]. split.
  - intros calls Hc. by apply (Vehicle_moves_stopped calls _ l).
  - intros step rng k s heap p n Hok Hd Hp.
    destruct (Simulation_run_ok step n rng k s heap Hok Hd)
      as (s' & heap' & Hrun & _).
    exists s', heap'. split; [done|].
    destruct (Simulation_run_evolves
                (λ a b, Vehicle.speed a = dbl 0 → b = a) step) with
      (n := n) (rng := rng) (k := k) (s := s) (heap := heap) (s' := s')
      (heap' := heap') (p := p) (v := Vehicle.setSpeed v (dbl 0))
      as (v' & Hv' & HR); try done.
    + intros v1 v2 v3 H12 H23 Hs. rewrite H23; rewrite H12; done.
    + intros lanes0 v0 v0' Hm Hs. by apply (Vehicle_move_stopped lanes0 _ _ _ Hs Hm).
    + by rewrite Hv', HR.
Qed.

Lemma C2_stopped_forever_witness :
  ∃ v1, Vehicle_move [lane_with RED] (vehicle_at 489 36) (dbl 1) = Some v1
        ∧ Vehicle.speed v1 = dbl 0
        ∧ Vehicle.position v1 = Vehicle.position (vehicle_at 489 36)
        ∧ (∀ calls, Forall (λ c, (0 < length c.1)%nat) calls →
                    Vehicle_moves v1 calls = Some v1)
        ∧ (∀ step rng k s heap p n,
             Mem_ok (Simulation.lanes s, heap) →
             (∀ i, Draws_ok (length (Simulation.lanes s)) (rng i)) →
             heap !! p = Some v1 →
             ∃ s' heap', Simulation_run step n rng k (s, heap) = Some (s', heap')
                         ∧ heap' !! p = Some v1).
Proof.
  apply (C2_stopped_forever [lane_with RED] (vehicle_at 489 36) (dbl 1) 0%nat
           (lane_with RED) eq_refl eq_refl).
  split; [done|]. split; by vm_compute.
Defined.




(** * Further properties *)

(** ** The stop line *)



(** ** The period of a light *)

Local Open Scope Z_scope.

Lemma TrafficLight_set_eta l :
  TrafficLight.set l (TrafficLight.state l) (TrafficLight.timer l) = l.
Proof. by destruct l. Qed.

(** Counting: [k] calls [update(1)] that stay below the duration. *)
Lemma light_updates_count k : ∀ l,
  0 ≤ TrafficLight.timer l →
  TrafficLight.timer l + Z.of_nat k < dwell l → dwell l ≤ INT_MAX →
  light_updates l (replicate k 1)
  = TrafficLight.set l (TrafficLight.state l) (TrafficLight.timer l + Z.of_nat k).
Proof.
  unfold light_updates.
  induction k as [|k IH]; intros l Ht Hk Hd; simpl.
  { by rewrite Z.add_0_r, TrafficLight_set_eta. }
  assert (int_add (TrafficLight.timer l) 1 = TrafficLight.timer l + 1) as Hadd.
  { apply int_add_small. unfold INT_MIN, INT_MAX in *. lia. }
  rewrite TrafficLight_update_stay by (rewrite Hadd; lia).
  rewrite Hadd, IH; simpl; unfold dwell in *; simpl; try lia.
  unfold TrafficLight.set. simpl. f_equal. lia.
Qed.

(** A whole phase: from timer 0, as many calls [update(1)] as the duration
    of the state end in the next state with timer 0. *)
Lemma light_updates_phase l :
  TrafficLight.timer l = 0 → 1 ≤ dwell l ≤ INT_MAX →
  light_updates l (replicate (Z.to_nat (dwell l)) 1)
  = TrafficLight.set l (next_state (TrafficLight.state l)) 0.
Proof.
  intros Ht Hd.
  replace (Z.to_nat (dwell l)) with (S (Z.to_nat (dwell l - 1))) by lia.
  rewrite replicate_S_end. unfold light_updates. rewrite foldl_app. simpl.
  fold (light_updates l (replicate (Z.to_nat (dwell l - 1)) 1)).
  rewrite light_updates_count by lia. rewrite Ht.
  rewrite TrafficLight_update_advance.
  - by destruct l.
  - unfold dwell, TrafficLight.set. simpl. fold (dwell l).
    rewrite int_add_small; unfold INT_MIN, INT_MAX in *; lia.
Qed.

Lemma light_updates_app l steps1 steps2 :
  light_updates l (steps1 ++ steps2) = light_updates (light_updates l steps1) steps2.
Proof. unfold light_updates. apply foldl_app. Qed.

(** X2.  With durations between 1 and INT_MAX, a light that has just
    entered a state (timer 0) and is updated with step 1 stays in that
    state for exactly its duration and then enters the next state with
    timer 0; after [green + yellow + red] updates it is back in its
    starting configuration, so its behaviour under [update(1)] is periodic
    with that period. *)
Theorem X2_light_period s g y r :
  1 ≤ g ≤ INT_MAX → 1 ≤ y ≤ INT_MAX → 1 ≤ r ≤ INT_MAX →
  let l := TrafficLight.mk s g y r 0 in
  (∀ k, Z.of_nat k < dwell l →
     light_updates l (replicate k 1) = TrafficLight.mk s g y r (Z.of_nat k))
  ∧ light_updates l (replicate (Z.to_nat (dwell l)) 1)
    = TrafficLight.mk (next_state s) g y r 0
  ∧ (∀ steps,
       light_updates l (replicate (Z.to_nat (g + y + r)) 1 ++ steps)
       = light_updates l steps).
Proof.
  intros Hg Hy Hr l.
  assert (∀ s', 1 ≤ dwell (TrafficLight.mk s' g y r 0) ≤ INT_MAX) as Hd.
  { intros s'. unfold dwell. by destruct s'. }
  split; [|split].
  - intros k Hk. rewrite light_updates_count; simpl; try lia.
    + done.
    + apply Hd.
  - rewrite light_updates_phase; [done|done|apply Hd].
  - intros steps. rewrite light_updates_app. f_equal.
    assert (∀ s', light_updates (TrafficLight.mk s' g y r 0)
                    (replicate (Z.to_nat (dwell (TrafficLight.mk s' g y r 0))) 1)
                  = TrafficLight.mk (next_state s') g y r 0) as Hphase.
    { intros s'. rewrite light_updates_phase; [done|done|apply Hd]. }
    pose proof (Hphase RED) as HR. pose proof (Hphase YELLOW) as HY.
    pose proof (Hphase GREEN) as HG. unfold dwell in HR, HY, HG. simpl in HR, HY, HG.
    unfold l. destruct s.
    + replace (Z.to_nat (g + y + r)) with (Z.to_nat r + (Z.to_nat g + Z.to_nat y))%nat
        by lia.
      by rewrite !replicate_add, !light_updates_app, HR, HG, HY.
    + replace (Z.to_nat (g + y + r)) with (Z.to_nat y + (Z.to_nat r + Z.to_nat g))%nat
        by lia.
      by rewrite !replicate_add, !light_updates_app, HY, HR, HG.
    + replace (Z.to_nat (g + y + r)) with (Z.to_nat g + (Z.to_nat y + Z.to_nat r))%nat
        by lia.
      by rewrite !replicate_add, !light_updates_app, HG, HY, HR.
Qed.

Lemma X2_light_period_witness :
  light_updates (TrafficLight.mk RED 10 3 7 0) (replicate 7 1)
  = TrafficLight.mk GREEN 10 3 7 0
  ∧ light_updates (TrafficLight.mk RED 10 3 7 0) (replicate 20 1 ++ [1; 1])
    = light_updates (TrafficLight.mk RED 10 3 7 0) [1; 1].
Proof.
  destruct (X2_light_period RED 10 3 7) as (_ & Hphase & Hperiod); [by vm_compute..|].
  split; [exact Hphase|exact (Hperiod [1; 1])].
Defined.

(** ** Back-references and the lanes' vectors along a tick *)

Local Open Scope Qc_scope.

Lemma filter_ext_elem {A} (P Q : A → Prop) `{∀ x, Decision (P x)} `{∀ x, Decision (Q x)}
    (l : list A) :
  (∀ x, x ∈ l → (P x ↔ Q x)) → filter P l = filter Q l.
Proof.
  induction l as [|a l IH]; intros Hext; [done|].
  rewrite !filter_cons.
  assert (filter P l = filter Q l) as ->.
  { apply IH. intros x Hx. apply Hext. by apply list_elem_of_further. }
  destruct (Hext a (list_elem_of_here _ _)) as [HPQ HQP].
  repeat case_decide; tauto.
Qed.

Lemma same_identity_refl v : same_identity v v.
Proof. done. Qed.

Lemma same_identity_trans v1 v2 v3 :
  same_identity v1 v2 → same_identity v2 v3 → same_identity v1 v3.
Proof. intros (? & ? & ?) (? & ? & ?). repeat split; congruence. Qed.

Lemma same_identity_move step lanes v v' :
  Vehicle_move lanes v (double_of_int step) = Some v' → same_identity v v'.
Proof. apply Vehicle_move_frame. Qed.

(** Vectors that only lose addresses and vehicles that keep their
    back-reference preserve [Backref_ok]. *)
Lemma Backref_ok_step lanes heap lanes' heap' :
  (∀ l lane', lanes' !! l = Some lane' →
     ∃ lane, lanes !! l = Some lane ∧ Lane.vehicles lane' `sublist_of` Lane.vehicles lane) →
  (∀ p v, heap !! p = Some v → ∃ v', heap' !! p = Some v' ∧ same_identity v v') →
  Backref_ok (lanes, heap) → Backref_ok (lanes', heap').
Proof.
  intros Hlanes Hheap Hbr l lane' p Hl Hp. simpl in *.
  destruct (Hlanes l lane' Hl) as (lane & Hlane & Hsub).
  destruct (Hbr l lane p Hlane (elem_of_sublist _ _ _ Hp Hsub)) as (v & Hv & Hcl).
  destruct (Hheap p v Hv) as (v' & Hv' & _ & _ & Hcl').
  exists v'. split; [done|congruence].
Qed.

(** Two lanes never hold the same address. *)
Lemma Backref_ok_disjoint lanes heap l1 l2 lane1 lane2 p :
  Backref_ok (lanes, heap) →
  lanes !! l1 = Some lane1 → lanes !! l2 = Some lane2 →
  p ∈ Lane.vehicles lane1 → p ∈ Lane.vehicles lane2 → l1 = l2.
Proof.
  intros Hbr H1 H2 Hp1 Hp2.
  destruct (Hbr l1 lane1 p H1 Hp1) as (v1 & Hv1 & Hc1).
  destruct (Hbr l2 lane2 p H2 Hp2) as (v2 & Hv2 & Hc2).
  simpl in *. congruence.
Qed.

Lemma Lane_update_backref this timeStep lanes heap lanes' heap' :
  (this < length lanes)%nat → Mem_ok (lanes, heap) → Backref_ok (lanes, heap) →
  Lane_update this timeStep (lanes, heap) = Some (lanes', heap') →
  Backref_ok (lanes', heap').
Proof.
  intros Hthis Hok Hbr Hup.
  destruct (Lane_update_ok this timeStep lanes heap Hthis Hok)
    as (lanes2 & heap2 & Hup2 & _ & Hlen & _ & Hl).
  rewrite Hup in Hup2. injection Hup2 as <- <-.
  apply (Backref_ok_step lanes heap); [| |done].
  - intros l lane' Hlane'.
    destruct (lookup_lt_is_Some_2 lanes l) as [lane Hlane].
    { rewrite <- Hlen. by apply lookup_lt_Some in Hlane'. }
    destruct (Hl l lane Hlane) as (lane2 & Hlane2 & (_ & _ & _ & Hsub) & _).
    exists lane. split; [done|]. congruence.
  - intros p v Hv. destruct (Lane_update_heap _ _ _ _ _ _ Hup) as [lanes1 ->].
    apply (foldl_move_at_evolves same_identity timeStep same_identity_refl
             same_identity_trans (same_identity_move timeStep)); done.
Qed.

(** The lane loop on a state with correct back-references: the vector of
    every updated lane is the old one filtered by [stays] in the final
    free store, the other vectors are as they were, and vehicles in no
    updated lane are untouched. *)
Lemma update_lanes_filter step n : ∀ j lanes heap,
  (j + n ≤ length lanes)%nat → Mem_ok (lanes, heap) → Backref_ok (lanes, heap) →
  ∃ lanes' heap',
    Simulation.update_lanes (seq j n) step (lanes, heap) = Some (lanes', heap')
    ∧ Mem_ok (lanes', heap') ∧ Backref_ok (lanes', heap')
    ∧ length lanes' = length lanes ∧ length heap' = length heap
    ∧ (∀ l lane, lanes !! l = Some lane →
         ∃ lane', lanes' !! l = Some lane' ∧ Lane_shrinks lane lane'
                  ∧ Lane.vehicles lane'
                    = if decide (j ≤ l < j + n)%nat
                      then filter (λ p, stays (Lane.length lane) heap' p)
                             (Lane.vehicles lane)
                      else Lane.vehicles lane)
    ∧ (∀ p, (∀ l lane, lanes !! l = Some lane → (j ≤ l < j + n)%nat →
                       p ∉ Lane.vehicles lane) →
            heap' !! p = heap !! p).
Proof.
  induction n as [|n IH]; intros j lanes heap Hj Hok Hbr; simpl.
  { exists lanes, heap. split; [done|]. split; [done|]. split; [done|].
    split; [done|]. split; [done|]. split; [|done].
    intros l lane Hl. exists lane. split; [done|]. split; [apply Lane_shrinks_refl|].
    rewrite decide_False; [done|lia]. }
  destruct (lookup_lt_is_Some_2 lanes j) as [lanej Hlanej]; [lia|].
  destruct Hok as [Hlanes Hheap]. simpl in Hlanes, Hheap.
  destruct (Forall_lookup_1 _ _ _ _ Hlanes Hlanej) as [Hnd Hvs].
  destruct (Lane_update_spec j step lanes heap lanej Hlanej Hvs Hheap)
    as (kept & Hup & Hsub & Hfil).
  specialize (Hfil Hnd).
  destruct (Lane_update_ok j step lanes heap ltac:(lia) (conj Hlanes Hheap))
    as (lanes1 & heap1 & Hup1 & Hok1 & Hlen1 & Hhlen1 & Hl1).
  pose proof (Lane_update_backref j step lanes heap lanes1 heap1 ltac:(lia)
                (conj Hlanes Hheap) Hbr Hup1) as Hbr1.
  rewrite Hup in Hup1. injection Hup1 as Hlanes1 Hheap1.
  rewrite Hup. simpl. rewrite Hlanes1, Hheap1.
  destruct (IH (S j) lanes1 heap1 ltac:(lia) Hok1 Hbr1)
    as (lanes2 & heap2 & Hup2 & Hok2 & Hbr2 & Hlen2 & Hhlen2 & Hl2 & Hfr2).
  exists lanes2, heap2. split; [done|]. split; [done|]. split; [done|].
  split; [congruence|]. split; [congruence|].
  (* cells of lanes other than the later ones are not touched by the rest *)
  assert (∀ l lane p, lanes !! l = Some lane → (l ≤ j)%nat →
            p ∈ Lane.vehicles lane → heap2 !! p = heap1 !! p) as Hkeep.
  { intros l lane p Hl Hle Hp. apply Hfr2. intros l' lane1' Hl' Hrange Hp'.
    destruct (lookup_lt_is_Some_2 lanes l') as [lane' Hlane'].
    { rewrite <- Hlen1. by apply lookup_lt_Some in Hl'. }
    destruct (Hl1 l' lane' Hlane') as (lane1 & Hlane1 & (_ & _ & _ & Hsub1) & _).
    assert (lane1 = lane1') as -> by congruence.
    assert (l = l') as ->; [|lia].
    apply (Backref_ok_disjoint lanes heap l l' lane lane' p); try done.
    by apply (elem_of_sublist _ _ _ Hp'). }
  split.
  - intros l lane Hl.
    destruct (Hl1 l lane Hl) as (lane1 & Hlane1 & Hshr1 & _).
    destruct (Hl2 l lane1 Hlane1) as (lane2 & Hlane2 & Hshr2 & Hvs2).
    exists lane2. split; [done|]. split; [by apply (Lane_shrinks_trans _ lane1)|].
    destruct (decide (l = j)) as [->|Hne].
    + assert (lane = lanej) as -> by congruence.
      rewrite decide_False in Hvs2 by lia. rewrite decide_True by lia.
      rewrite Hvs2.
      assert (Lane.vehicles lane1 = kept) as ->.
      { rewrite <- Hlanes1 in Hlane1.
        rewrite list_lookup_insert_eq in Hlane1 by by apply lookup_lt_Some in Hlanej.
        by injection Hlane1 as <-. }
      rewrite Hfil. apply filter_ext_elem. intros p Hp.
      unfold stays. rewrite Hheap1.
      by rewrite (Hkeep j lanej p Hlanej (le_n _) Hp).
    + assert (lane1 = lane) as ->.
      { rewrite <- Hlanes1 in Hlane1.
        rewrite list_lookup_insert_ne in Hlane1 by done. congruence. }
      rewrite Hvs2. repeat case_decide; try done; lia.
  - intros p Hp. rewrite Hfr2.
    + rewrite <- Hheap1. apply foldl_move_at_other. apply (Hp j lanej Hlanej). lia.
    + intros l' lane1' Hl' Hrange Hp'.
      destruct (lookup_lt_is_Some_2 lanes l') as [lane' Hlane'].
      { rewrite <- Hlen1. by apply lookup_lt_Some in Hl'. }
      destruct (Hl1 l' lane' Hlane') as (lane1 & Hlane1 & (_ & _ & _ & Hsub1) & _).
      assert (lane1 = lane1') as -> by congruence.
      apply (Hp l' lane' Hlane'); [lia|]. by apply (elem_of_sublist _ _ _ Hp').
Qed.

Lemma after_spawn_backref s heap ty speed l lane :
  Simulation.lanes s !! l = Some lane →
  Backref_ok (Simulation.lanes s, heap) →
  Backref_ok (Simulation.lanes (after_spawn s heap l lane),
              heap ++ [spawned s ty speed l]).
Proof.
  intros Hlane Hbr l' lane' p Hl' Hp. simpl in *.
  destruct (decide (l' = l)) as [->|Hne].
  - rewrite list_lookup_insert_eq in Hl' by by apply lookup_lt_Some in Hlane.
    injection Hl' as <-. simpl in Hp.
    apply elem_of_app in Hp as [Hp | ->%list_elem_of_singleton].
    + destruct (Hbr l lane p Hlane Hp) as (v & Hv & Hcl).
      exists v. split; [by apply lookup_app_l_Some|done].
    + exists (spawned s ty speed l). split; [by apply list_lookup_middle|done].
  - rewrite list_lookup_insert_ne in Hl' by done.
    destruct (Hbr l' lane' p Hl' Hp) as (v & Hv & Hcl).
    exists v. split; [by apply lookup_app_l_Some|done].
Qed.

(** A tick on a state with correct back-references, phase by phase:
    [(s1, heap1)] is the state after the clock and the spawn. *)
Lemma Simulation_tick_strong step d s heap :
  Mem_ok (Simulation.lanes s, heap) → Backref_ok (Simulation.lanes s, heap) →
  Draws_ok (length (Simulation.lanes s)) d →
  ∃ s1 heap1 lanes' heap',
    ((spawnDraw d < dbl 0.3
      ∧ ∃ ty l lane,
          static_cast_VehicleType (typeDraw d) = Some ty
          ∧ laneDraw d = Z.of_nat l
          ∧ Simulation.lanes s !! l = Some lane
          ∧ s1 = after_spawn (tick_time s step) heap l lane
          ∧ heap1 = heap ++ [spawned s ty (speedDraw d) l])
     ∨ (¬ spawnDraw d < dbl 0.3 ∧ s1 = tick_time s step ∧ heap1 = heap))
    ∧ Mem_ok (Simulation.lanes s1, heap1) ∧ Backref_ok (Simulation.lanes s1, heap1)
    ∧ Simulation.update_lanes (seq 0 (length (Simulation.lanes s1))) step
        (Simulation.lanes s1, heap1) = Some (lanes', heap')
    ∧ Simulation.update step d (s, heap)
      = Some (Simulation.mk lanes' (Simulation.vehicles s1) (Simulation.nextId s1)
                (Simulation.simTime s1), heap')
    ∧ Mem_ok (lanes', heap') ∧ Backref_ok (lanes', heap')
    ∧ length lanes' = length (Simulation.lanes s) ∧ length heap' = length heap1
    ∧ (∀ l lane1, Simulation.lanes s1 !! l = Some lane1 →
         ∃ lane', lanes' !! l = Some lane' ∧ Lane_shrinks lane1 lane'
                  ∧ Lane.vehicles lane'
                    = filter (λ p, stays (Lane.length lane1) heap' p)
                        (Lane.vehicles lane1))
    ∧ (∀ p, ¬ in_lanes p (Simulation.lanes s1) → heap' !! p = heap1 !! p).
Proof.
  intros Hok Hbr Hd.
  destruct (spawn_phase_ok d (tick_time s step) heap Hok Hd)
    as (s1 & heap1 & Hsp & Hok1 & Hcases).
  assert (Backref_ok (Simulation.lanes s1, heap1)
          ∧ length (Simulation.lanes s1) = length (Simulation.lanes s)) as [Hbr1 Hlen1].
  { destruct Hcases as [(_ & ty & l & lane & _ & _ & Hlane & -> & ->) | (_ & -> & ->)].
    - split; [by apply (after_spawn_backref (tick_time s step))|].
      simpl. apply length_insert.
    - done. }
  destruct (update_lanes_filter step (length (Simulation.lanes s1)) 0
              (Simulation.lanes s1) heap1 ltac:(lia) Hok1 Hbr1)
    as (lanes' & heap' & Hup & Hok' & Hbr' & Hlen' & Hhlen' & Hl' & Hfr').
  exists s1, heap1, lanes', heap'.
  split; [done|]. split; [done|]. split; [done|]. split; [done|]. split.
  { unfold Simulation.update. simpl. unfold tick_time in Hsp. rewrite Hsp. simpl.
    by rewrite Hup. }
  split; [done|]. split; [done|]. split; [congruence|]. split; [done|]. split.
  - intros l lane1 Hl. destruct (Hl' l lane1 Hl) as (lane' & Hlane' & Hshr & Hvs).
    exists lane'. split; [done|]. split; [done|].
    rewrite Hvs. rewrite decide_True; [done|]. apply lookup_lt_Some in Hl. lia.
  - intros p Hp. apply Hfr'. intros l lane Hl _ Hin. apply Hp. by exists l, lane.
Qed.

(** ** An invariant of the reachable states *)

Lemma Vehicle_forward_move step lanes v v' :
  (0 ≤ step)%Z → Vehicle_move lanes v (double_of_int step) = Some v' →
  Vehicle_forward v → Vehicle_forward v'.
Proof.
  intros Hstep Hm [Hs Hp].
  destruct (Vehicle_move_monotone lanes v _ v' Hs (double_of_int_nonneg _ Hstep) Hm)
    as [Hle Hs'].
  split; [done|]. by apply Qcle_trans with (Vehicle.position v).
Qed.

Lemma setup_State_inv : State_inv (Simulation.setup Simulation.new, []).
Proof.
  split; [apply setup_Mem_ok|]. split; [|split; [done|split; [|done]]].
  - intros l lane p Hl Hp. simpl in *.
    destruct l as [|[|l]]; simplify_eq/=; by apply elem_of_nil in Hp.
  - intros l lane p Hl Hp. simpl in *.
    destruct l as [|[|l]]; simplify_eq/=; by apply elem_of_nil in Hp.
Qed.

(** One tick keeps the invariant; the free store grows by the one vehicle
    of a spawning tick and by nothing otherwise. *)
Lemma Simulation_update_State_inv step d s heap :
  (0 ≤ step)%Z → State_inv (s, heap) → Draws_ok (length (Simulation.lanes s)) d →
  ∃ s' heap',
    Simulation.update step d (s, heap) = Some (s', heap')
    ∧ State_inv (s', heap')
    ∧ length (Simulation.lanes s') = length (Simulation.lanes s)
    ∧ length heap' = (spawn_bit d + length heap)%nat.
Proof.
  intros Hstep (Hok & Hbr & Hvs & _ & Hfw) Hd. simpl in *.
  destruct (Simulation_tick_strong step d s heap Hok Hbr Hd)
    as (s1 & heap1 & lanes' & heap' & Hcases & Hok1 & Hbr1 & Hlanes & Hup & Hok' & Hbr'
        & Hlen' & Hhlen' & Hl' & _).
  eexists _, _. split; [exact Hup|]. simpl.
  assert (Simulation.vehicles s1 = seq 0 (length heap1)
          ∧ Forall Vehicle_forward heap1
          ∧ length heap1 = (spawn_bit d + length heap)%nat)
    as (Hvs1 & Hfw1 & Hhlen1).
  { destruct Hcases as [(Hlt & ty & l & lane & _ & _ & Hlane & -> & ->) | (Hge & -> & ->)].
    - simpl. unfold spawn_bit. rewrite bool_decide_eq_true_2 by done.
      rewrite length_app. simpl. split; [|split; [|lia]].
      + rewrite Hvs, Nat.add_1_r, seq_S. done.
      + apply Forall_app. split; [done|]. apply Forall_singleton.
        destruct (Hd Hlt) as (_ & [Hspeed _] & _). split; simpl; [|done].
        apply Qcle_trans with (dbl 20); [by vm_compute|done].
    - simpl. unfold spawn_bit. by rewrite bool_decide_eq_false_2. }
  split; [|split; [done|congruence]].
  split; [done|]. split; [done|]. split; [simpl; by rewrite Hhlen'|]. split.
  - intros l lane' p Hl Hp. simpl in *.
    destruct (lookup_lt_is_Some_2 (Simulation.lanes s1) l) as [lane1 Hlane1].
    { destruct Hok' as [_ _]. apply lookup_lt_Some in Hl.
      destruct Hcases as [(_ & ? & ? & ? & _ & _ & _ & -> & _) | (_ & -> & _)];
        simpl; rewrite ?length_insert; lia. }
    destruct (Hl' l lane1 Hlane1) as (lane2 & Hlane2 & (_ & Hlg & _) & Hvs2).
    assert (lane2 = lane') as -> by congruence.
    rewrite Hvs2 in Hp. apply list_elem_of_filter in Hp as [Hst _].
    by rewrite Hlg.
  - apply Forall_lookup_2. intros p v' Hv'. simpl in Hv'.
    destruct (lookup_lt_is_Some_2 heap1 p) as [v1 Hv1].
    { rewrite <- Hhlen'. by apply lookup_lt_Some in Hv'. }
    destruct (update_lanes_evolves (λ a b, Vehicle_forward a → Vehicle_forward b) step)
      with (ls := seq 0 (length (Simulation.lanes s1))) (lanes := Simulation.lanes s1)
           (heap := heap1) (lanes' := lanes') (heap' := heap') (p := p) (v := v1)
      as (v2 & Hv2 & HR); try done.
    + intros a b c Hab Hbc Ha. by apply Hbc, Hab.
    + intros lanes0 a b Hm. by apply (Vehicle_forward_move step lanes0).
    + assert (v2 = v') as <- by congruence.
      apply HR. by apply (Forall_lookup_1 _ _ _ _ Hfw1 Hv1).
Qed.

(** Runs keep the invariant, and the free store holds as many vehicles as
    there were spawning ticks. *)
Lemma Simulation_run_State_inv step n : ∀ rng k s heap,
  (0 ≤ step)%Z → State_inv (s, heap) →
  (∀ i, Draws_ok (length (Simulation.lanes s)) (rng i)) →
  ∃ s' heap',
    Simulation_run step n rng k (s, heap) = Some (s', heap')
    ∧ State_inv (s', heap')
    ∧ length (Simulation.lanes s') = length (Simulation.lanes s)
    ∧ length heap' = (spawn_count rng k n + length heap)%nat.
Proof.
  induction n as [|n IH]; intros rng k s heap Hstep Hinv Hd; simpl.
  { by exists s, heap. }
  destruct (Simulation_update_State_inv step (rng k) s heap Hstep Hinv (Hd k))
    as (s1 & heap1 & Hup & Hinv1 & Hlen1 & Hhlen1).
  rewrite Hup. simpl.
  destruct (IH rng (S k) s1 heap1 Hstep Hinv1) as (s2 & heap2 & Hrun & Hinv2 & Hlen2 & Hhlen2).
  { by rewrite Hlen1. }
  exists s2, heap2. split; [done|]. split; [done|]. split; [congruence|].
  rewrite Hhlen2, Hhlen1. lia.
Qed.

(** X3.  In every state the simulation reaches from [setup] (any number of
    ticks of a step that is not negative, draws in range), each address in
    a lane's vector is allocated and the vehicle there has its
    back-reference on that very lane; hence no vehicle is in two lanes, and
    no lane holds a vehicle twice. *)
Theorem X3_back_references step n rng :
  (0 ≤ step)%Z → (∀ i, Draws_ok 2 (rng i)) →
  ∃ s heap,
    Simulation_run step n rng 0 (Simulation.setup Simulation.new, []) = Some (s, heap)
    ∧ (∀ l lane p, Simulation.lanes s !! l = Some lane → p ∈ Lane.vehicles lane →
         ∃ v, heap !! p = Some v ∧ Vehicle.currentLane v = Some l)
    ∧ (∀ l1 l2 lane1 lane2 p,
         Simulation.lanes s !! l1 = Some lane1 → Simulation.lanes s !! l2 = Some lane2 →
         p ∈ Lane.vehicles lane1 → p ∈ Lane.vehicles lane2 → l1 = l2)
    ∧ (∀ l lane, Simulation.lanes s !! l = Some lane → NoDup (Lane.vehicles lane)).
Proof.
  intros Hstep Hd.
  destruct (Simulation_run_State_inv step n rng 0 (Simulation.setup Simulation.new) []
              Hstep setup_State_inv Hd)
    as (s & heap & Hrun & ([Hlanes _] & Hbr & _) & _).
  exists s, heap. split; [done|]. split; [exact Hbr|]. split.
  - intros l1 l2 lane1 lane2 p. by apply (Backref_ok_disjoint _ heap).
  - intros l lane Hl. simpl in Hlanes.
    by destruct (Forall_lookup_1 _ _ _ _ Hlanes Hl).
Qed.

Lemma X3_back_references_witness :
  ∃ s heap,
    Simulation_run 1 3 (λ _, spawn_draws) 0 (Simulation.setup Simulation.new, [])
    = Some (s, heap)
    ∧ (∀ l lane p, Simulation.lanes s !! l = Some lane → p ∈ Lane.vehicles lane →
         ∃ v, heap !! p = Some v ∧ Vehicle.currentLane v = Some l)
    ∧ (∀ l1 l2 lane1 lane2 p,
         Simulation.lanes s !! l1 = Some lane1 → Simulation.lanes s !! l2 = Some lane2 →
         p ∈ Lane.vehicles lane1 → p ∈ Lane.vehicles lane2 → l1 = l2)
    ∧ (∀ l lane, Simulation.lanes s !! l = Some lane → NoDup (Lane.vehicles lane)).
Proof.
  apply (X3_back_references 1 3 (λ _, spawn_draws)); [lia|].
  intros _. apply spawn_draws_ok.
Defined.




(** ** Vehicle ids *)

(** One tick keeps "the vehicle at address [p] has id [p + 1] and the
    counter is one more than the number of vehicles", as long as the
    counter does not overflow. *)
Lemma Simulation_update_ids step d s heap :
  Mem_ok (Simulation.lanes s, heap) → Backref_ok (Simulation.lanes s, heap) →
  Draws_ok (length (Simulation.lanes s)) d →
  (Z.of_nat (length heap) + 2 ≤ INT_MAX)%Z →
  Simulation.nextId s = (Z.of_nat (length heap) + 1)%Z →
  (∀ p v, heap !! p = Some v → Vehicle.id v = (Z.of_nat p + 1)%Z) →
  ∃ s' heap',
    Simulation.update step d (s, heap) = Some (s', heap')
    ∧ Mem_ok (Simulation.lanes s', heap') ∧ Backref_ok (Simulation.lanes s', heap')
    ∧ length (Simulation.lanes s') = length (Simulation.lanes s)
    ∧ (length heap' ≤ S (length heap))%nat
    ∧ Simulation.nextId s' = (Z.of_nat (length heap') + 1)%Z
    ∧ (∀ p v, heap' !! p = Some v → Vehicle.id v = (Z.of_nat p + 1)%Z).
Proof.
  intros Hok Hbr Hd Hbound Hnext Hids.
  destruct (Simulation_tick_strong step d s heap Hok Hbr Hd)
    as (s1 & heap1 & lanes' & heap' & Hcases & Hok1 & Hbr1 & Hlanes & Hup & Hok' & Hbr'
        & Hlen' & Hhlen' & _).
  eexists _, _. split; [exact Hup|]. simpl.
  split; [done|]. split; [done|]. split; [done|].
  assert ((length heap1 ≤ S (length heap))%nat
          ∧ Simulation.nextId s1 = (Z.of_nat (length heap1) + 1)%Z
          ∧ (∀ p v, heap1 !! p = Some v → Vehicle.id v = (Z.of_nat p + 1)%Z))
    as (Hle1 & Hnext1 & Hids1).
  { destruct Hcases as [(_ & ty & l & lane & _ & _ & _ & -> & ->) | (_ & -> & ->)]; simpl.
    - rewrite length_app. simpl. split; [lia|]. split.
      + rewrite Hnext, int_add_small; unfold INT_MIN, INT_MAX in *; lia.
      + intros p v Hv. apply lookup_app_Some in Hv as [Hv | [Hge Hv]]; [by apply Hids|].
        apply list_lookup_singleton_Some in Hv as [Hp <-]. simpl. lia.
    - split; [lia|done]. }
  split; [lia|]. split; [by rewrite Hhlen'|].
  intros p v' Hv'.
  destruct (lookup_lt_is_Some_2 heap1 p) as [v1 Hv1].
  { rewrite <- Hhlen'. by apply lookup_lt_Some in Hv'. }
  destruct (update_lanes_evolves same_identity step same_identity_refl
              same_identity_trans (same_identity_move step) _ _ _ _ _ p v1 Hlanes Hv1)
    as (v2 & Hv2 & Hid & _).
  assert (v2 = v') as <- by congruence.
  rewrite Hid. by apply Hids1.
Qed.

Lemma Simulation_run_ids step n : ∀ rng k s heap,
  Mem_ok (Simulation.lanes s, heap) → Backref_ok (Simulation.lanes s, heap) →
  (∀ i, Draws_ok (length (Simulation.lanes s)) (rng i)) →
  (Z.of_nat (length heap) + Z.of_nat n + 1 ≤ INT_MAX)%Z →
  Simulation.nextId s = (Z.of_nat (length heap) + 1)%Z →
  (∀ p v, heap !! p = Some v → Vehicle.id v = (Z.of_nat p + 1)%Z) →
  ∃ s' heap',
    Simulation_run step n rng k (s, heap) = Some (s', heap')
    ∧ Simulation.nextId s' = (Z.of_nat (length heap') + 1)%Z
    ∧ (∀ p v, heap' !! p = Some v → Vehicle.id v = (Z.of_nat p + 1)%Z).
Proof.
  induction n as [|n IH]; intros rng k s heap Hok Hbr Hd Hbound Hnext Hids; simpl.
  { by exists s, heap. }
  destruct (Simulation_update_ids step (rng k) s heap Hok Hbr (Hd k) ltac:(lia) Hnext Hids)
    as (s1 & heap1 & Hup & Hok1 & Hbr1 & Hlen1 & Hle1 & Hnext1 & Hids1).
  rewrite Hup. simpl.
  apply IH; try done; [by rewrite Hlen1|lia].
Qed.

(** X5.  After [n < INT_MAX] ticks from [setup], the vehicle at address [p]
    of the free store carries the id [p + 1], so ids are 1, 2, 3, ... in
    the order of creation and no two vehicles share one; the counter
    [nextId] is one more than the number of vehicles created so far. *)
Theorem X5_ids_unique step n rng :
  (Z.of_nat n < INT_MAX)%Z → (∀ i, Draws_ok 2 (rng i)) →
  ∃ s heap,
    Simulation_run step n rng 0 (Simulation.setup Simulation.new, []) = Some (s, heap)
    ∧ Simulation.nextId s = (Z.of_nat (length heap) + 1)%Z
    ∧ (∀ p v, heap !! p = Some v → Vehicle.id v = (Z.of_nat p + 1)%Z)
    ∧ (∀ p q v w, heap !! p = Some v → heap !! q = Some w →
                  Vehicle.id v = Vehicle.id w → p = q).
Proof.
  intros Hn Hd.
  destruct setup_State_inv as (Hok & Hbr & _).
  destruct (Simulation_run_ids step n rng 0 (Simulation.setup Simulation.new) []
              Hok Hbr Hd) as (s & heap & Hrun & Hnext & Hids); simpl; [lia|done|done|].
  exists s, heap. split; [done|]. split; [done|]. split; [done|].
  intros p q v w Hv Hw Hvw.
  rewrite (Hids p v Hv), (Hids q w Hw) in Hvw. lia.
Qed.

Lemma X5_ids_unique_witness :
  ∃ s heap,
    Simulation_run 1 3 (λ _, spawn_draws) 0 (Simulation.setup Simulation.new, [])
    = Some (s, heap)
    ∧ Simulation.nextId s = (Z.of_nat (length heap) + 1)%Z
    ∧ (∀ p v, heap !! p = Some v → Vehicle.id v = (Z.of_nat p + 1)%Z)
    ∧ (∀ p q v w, heap !! p = Some v → heap !! q = Some w →
                  Vehicle.id v = Vehicle.id w → p = q).
Proof.
  apply (X5_ids_unique 1 3 (λ _, spawn_draws)); [by vm_compute|].
  intros _. apply spawn_draws_ok.
Defined.

(** ** What the track shows *)


Lemma double_of_int_le_iff a b : double_of_int a ≤ double_of_int b ↔ (a ≤ b)%Z.
Proof.
  unfold double_of_int, Qcle. cbn [this Q2Qc]. rewrite !Qred_correct.
  unfold Qle. simpl. lia.
Qed.








(** ** Every vehicle of a lane is on the track *)




(** ** Vehicles that have left, and vehicles that have stopped *)

Lemma after_spawn_in_lanes s heap l lane p :
  Simulation.lanes s !! l = Some lane →
  in_lanes p (Simulation.lanes (after_spawn s heap l lane)) →
  in_lanes p (Simulation.lanes s) ∨ p = length heap.
Proof.
  intros Hl (l' & lane' & Hl' & Hin). simpl in Hl'.
  destruct (decide (l' = l)) as [->|Hne].
  - rewrite list_lookup_insert_eq in Hl' by by apply lookup_lt_Some in Hl.
    injection Hl' as <-. simpl in Hin.
    apply elem_of_app in Hin as [Hin|Hin].
    + left. by exists l, lane.
    + right. by apply list_elem_of_singleton in Hin.
  - rewrite list_lookup_insert_ne in Hl' by done. left. by exists l', lane'.
Qed.

Lemma Simulation_update_frozen_out step d s heap p :
  Mem_ok (Simulation.lanes s, heap) → Backref_ok (Simulation.lanes s, heap) →
  Draws_ok (length (Simulation.lanes s)) d →
  (p < length heap)%nat → ¬ in_lanes p (Simulation.lanes s) →
  ∃ s' heap',
    Simulation.update step d (s, heap) = Some (s', heap')
    ∧ Mem_ok (Simulation.lanes s', heap') ∧ Backref_ok (Simulation.lanes s', heap')
    ∧ length (Simulation.lanes s') = length (Simulation.lanes s)
    ∧ (p < length heap')%nat ∧ ¬ in_lanes p (Simulation.lanes s')
    ∧ heap' !! p = heap !! p.
Proof.
  intros Hok Hback Hd Hp Hout.
  destruct (Simulation_tick_strong step d s heap Hok Hback Hd)
    as (s1 & heap1 & lanes' & heap' & Hspawn & _ & _ & _ & Hup & Hok' & Hback'
        & Hlen & Hhlen & _ & Hframe).
  destruct (Simulation_update_keeps_out step d s heap _ _ p Hok Hd Hup Hp Hout)
    as [Hp' Hout'].
  eexists _, heap'. split; [exact Hup|]. simpl in *.
  split; [done|]. split; [done|]. split; [done|]. split; [done|]. split; [done|].
  destruct Hspawn as [(_ & ty & l & lane & _ & _ & Hl & -> & ->)|(_ & -> & ->)].
  - rewrite Hframe.
    + by apply lookup_app_l.
    + intros Hin. apply after_spawn_in_lanes in Hin as [Hin| ->]; [done| |done]. lia.
  - by apply Hframe.
Qed.

(** X8.  A vehicle that is allocated but in no lane's vector (one that has
    left its lane) is never written again: after any number of ticks its
    object in the free store is what it was, and it is still in no lane. *)
Theorem X8_removed_vehicle_frozen step n : ∀ rng k s heap p,
  Mem_ok (Simulation.lanes s, heap) → Backref_ok (Simulation.lanes s, heap) →
  (∀ i, Draws_ok (length (Simulation.lanes s)) (rng i)) →
  (p < length heap)%nat → ¬ in_lanes p (Simulation.lanes s) →
  ∃ s' heap',
    Simulation_run step n rng k (s, heap) = Some (s', heap')
    ∧ heap' !! p = heap !! p
    ∧ ¬ in_lanes p (Simulation.lanes s').
Proof.
  induction n as [|n IH]; intros rng k s heap p Hok Hback Hd Hp Hout.
  { by exists s, heap. }
  destruct (Simulation_update_frozen_out step (rng k) s heap p Hok Hback (Hd k) Hp Hout)
    as (s1 & heap1 & Hup & Hok1 & Hback1 & Hlen1 & Hp1 & Hout1 & Hcell1).
  destruct (IH rng (S k) s1 heap1 p Hok1 Hback1) as (s' & heap' & Hrun & Hcell & Hout');
    [by rewrite Hlen1|done..|].
  exists s', heap'. simpl. rewrite Hup. simpl.
  split; [done|]. split; [congruence|done].
Qed.

Lemma demo_state_backref : Backref_ok (Simulation.lanes demo_state.1, demo_state.2).
Proof.
  intros l lane p Hl Hp. destruct l as [|l]; [|done].
  injection Hl as <-. simpl in Hp.
  repeat (apply elem_of_cons in Hp as [-> | Hp]; [by eexists|]).
  by apply elem_of_nil in Hp.
Qed.

Lemma demo_state_1_inv :
  Mem_ok (Simulation.lanes demo_state_1.1, demo_state_1.2)
  ∧ Backref_ok (Simulation.lanes demo_state_1.1, demo_state_1.2).
Proof.
  destruct (Simulation_tick_strong 1 idle_draws demo_state.1 demo_state.2
              demo_state_ok demo_state_backref (idle_draws_ok 1))
    as (s1 & heap1 & lanes' & heap' & _ & _ & _ & _ & Hup & Hok' & Hback' & _).
  change (demo_state.1, demo_state.2) with demo_state in Hup.
  rewrite demo_state_update in Hup. apply (inj Some) in Hup.
  by rewrite Hup.
Qed.

Lemma X8_removed_vehicle_frozen_witness :
  ∃ s' heap',
    Simulation_run 1 5 (λ _, idle_draws) 1 demo_state_1 = Some (s', heap')
    ∧ heap' !! 0%nat = demo_state_1.2 !! 0%nat
    ∧ ¬ in_lanes 0 (Simulation.lanes s').
Proof.
  apply (X8_removed_vehicle_frozen 1 5 (λ _, idle_draws) 1 demo_state_1.1
           demo_state_1.2 0 (proj1 demo_state_1_inv) (proj2 demo_state_1_inv)
           (λ _, idle_draws_ok 1)).
  - simpl. lia.
  - intros (l & lane & Hl & Hin). destruct l as [|l]; [|done].
    injection Hl as <-. simpl in Hin.
    do 2 (apply elem_of_cons in Hin as [Hin|Hin]; [done|]).
    by apply elem_of_nil in Hin.
Defined.

Lemma after_spawn_keeps_lane s heap l0 lane0 l lane p :
  Simulation.lanes s !! l0 = Some lane0 →
  Simulation.lanes s !! l = Some lane → p ∈ Lane.vehicles lane →
  ∃ lane1, Simulation.lanes (after_spawn s heap l0 lane0) !! l = Some lane1
           ∧ Lane.length lane1 = Lane.length lane ∧ p ∈ Lane.vehicles lane1.
Proof.
  intros Hl0 Hl Hp. simpl. destruct (decide (l = l0)) as [->|Hne].
  - rewrite list_lookup_insert_eq by by apply lookup_lt_Some in Hl0.
    assert (lane0 = lane) as -> by congruence.
    eexists. split; [done|]. split; [done|]. simpl.
    apply elem_of_app. by left.
  - rewrite list_lookup_insert_ne by done. by exists lane.
Qed.

Lemma Simulation_update_stalled step d s heap l lane p v :
  Mem_ok (Simulation.lanes s, heap) → Backref_ok (Simulation.lanes s, heap) →
  Draws_ok (length (Simulation.lanes s)) d →
  Simulation.lanes s !! l = Some lane → p ∈ Lane.vehicles lane →
  heap !! p = Some v →
  Vehicle.speed v = dbl 0 → Vehicle.position v < Lane.length lane →
  ∃ s' heap' lane',
    Simulation.update step d (s, heap) = Some (s', heap')
    ∧ Mem_ok (Simulation.lanes s', heap') ∧ Backref_ok (Simulation.lanes s', heap')
    ∧ length (Simulation.lanes s') = length (Simulation.lanes s)
    ∧ Simulation.lanes s' !! l = Some lane'
    ∧ Lane.length lane' = Lane.length lane
    ∧ p ∈ Lane.vehicles lane'
    ∧ heap' !! p = Some v.
Proof.
  intros Hok Hback Hd Hl Hp Hv Hsp Hlt.
  destruct (Simulation_tick_strong step d s heap Hok Hback Hd)
    as (s1 & heap1 & lanes' & heap' & Hspawn & _ & _ & Hlanes & Hup & Hok' & Hback'
        & Hlen & _ & Hfilter & _).
  assert (∃ lane1, Simulation.lanes s1 !! l = Some lane1
                   ∧ Lane.length lane1 = Lane.length lane
                   ∧ p ∈ Lane.vehicles lane1) as (lane1 & Hl1 & Hlen1 & Hp1).
  { destruct Hspawn as [(_ & ty & l0 & lane0 & _ & _ & Hl0 & -> & _)|(_ & -> & _)].
    - by apply after_spawn_keeps_lane.
    - by exists lane. }
  assert (heap1 !! p = Some v) as Hv1.
  { destruct Hspawn as [(_ & ty & l0 & lane0 & _ & _ & _ & _ & ->)|(_ & _ & ->)];
      [by apply lookup_app_l_Some|done]. }
  assert (heap' !! p = Some v) as Hv'.
  { destruct (update_lanes_evolves (λ a b, Vehicle.speed a = dbl 0 → b = a) step)
      with (ls := seq 0 (length (Simulation.lanes s1)))
           (lanes := Simulation.lanes s1) (heap := heap1) (lanes' := lanes')
           (heap' := heap') (p := p) (v := v) as (v' & Hv' & HR); try done.
    - intros v1 v2 v3 H12 H23 Hs. rewrite H23; rewrite H12; done.
    - intros lanes0 v0 v0' Hm Hs. by apply (Vehicle_move_stopped lanes0 _ _ _ Hs Hm).
    - by rewrite Hv', HR. }
  destruct (Hfilter l lane1 Hl1) as (lane' & Hl' & (_ & Hlen' & _) & Hvs).
  eexists _, heap', lane'. split; [exact Hup|]. simpl.
  split; [done|]. split; [done|]. split; [done|]. split; [done|].
  split; [congruence|]. split; [|done].
  rewrite Hvs. apply list_elem_of_filter. split; [|done].
  apply stays_spec. exists v. split; [done|]. by rewrite Hlen1.
Qed.

(** X9.  A vehicle with speed 0 that is in a lane's vector, before the
    lane's end, is never erased from it: after any number of ticks, of any
    step and under any lights, it is still in that lane's vector and its
    object is unchanged. *)
Theorem X9_stalled_vehicle_stays step n : ∀ rng k s heap l lane p v,
  Mem_ok (Simulation.lanes s, heap) → Backref_ok (Simulation.lanes s, heap) →
  (∀ i, Draws_ok (length (Simulation.lanes s)) (rng i)) →
  Simulation.lanes s !! l = Some lane → p ∈ Lane.vehicles lane →
  heap !! p = Some v →
  Vehicle.speed v = dbl 0 → Vehicle.position v < Lane.length lane →
  ∃ s' heap' lane',
    Simulation_run step n rng k (s, heap) = Some (s', heap')
    ∧ Simulation.lanes s' !! l = Some lane'
    ∧ p ∈ Lane.vehicles lane'
    ∧ heap' !! p = Some v.
Proof.
  induction n as [|n IH]; intros rng k s heap l lane p v Hok Hback Hd Hl Hp Hv Hsp Hlt.
  { by exists s, heap, lane. }
  destruct (Simulation_update_stalled step (rng k) s heap l lane p v
              Hok Hback (Hd k) Hl Hp Hv Hsp Hlt)
    as (s1 & heap1 & lane1 & Hup & Hok1 & Hback1 & Hlen1 & Hl1 & Hlane1 & Hp1 & Hv1).
  destruct (IH rng (S k) s1 heap1 l lane1 p v Hok1 Hback1)
    as (s' & heap' & lane' & Hrun & ?); [by rewrite Hlen1|done..|by rewrite Hlane1|].
  exists s', heap', lane'. simpl. rewrite Hup. simpl. by split.
Qed.

Lemma X9_stalled_vehicle_stays_witness :
  ∃ s' heap' lane',
    Simulation_run 1 30 (λ _, idle_draws) 1 demo_state_1 = Some (s', heap')
    ∧ Simulation.lanes s' !! 0%nat = Some lane'
    ∧ 2%nat ∈ Lane.vehicles lane'
    ∧ heap' !! 2%nat = Some (Vehicle.setSpeed (vehicle_at 488 36) (dbl 0)).
Proof.
  apply (X9_stalled_vehicle_stays 1 30 (λ _, idle_draws) 1 demo_state_1.1
           demo_state_1.2 0%nat
           (Lane.mk 1 (dbl 500) (dbl 50) [1; 2]%nat (TrafficLight.mk RED 10 3 7 1))
           2%nat (Vehicle.setSpeed (vehicle_at 488 36) (dbl 0))
           (proj1 demo_state_1_inv) (proj2 demo_state_1_inv) (λ _, idle_draws_ok 1)).
  - reflexivity.
  - apply list_elem_of_further, list_elem_of_here.
  - reflexivity.
  - reflexivity.
  - by vm_compute.
Defined.

(** ** What a run never changes in a vehicle *)

Lemma Vehicle_move_speed lanes v timeStep v' :
  Vehicle_move lanes v timeStep = Some v' →
  Vehicle.speed v' = Vehicle.speed v ∨ Vehicle.speed v' = dbl 0.
Proof.
  intros Hm.
  destruct (Vehicle_move_cases _ _ _ _ Hm)
    as [[_ ->]|[(l & lane & _ & _ & _ & ->)|(l & lane & _ & _ & _ & ->)]];
    simpl; auto.
Qed.

(** X10.  No tick changes a vehicle's id, type or lane, and the only value
    a tick ever writes to a speed is 0: after any number of ticks the
    vehicle at an address has the id, type and back-reference it had, and
    its speed is the one it had or 0. *)
Theorem X10_vehicle_constant step n rng k s heap p v :
  Mem_ok (Simulation.lanes s, heap) →
  (∀ i, Draws_ok (length (Simulation.lanes s)) (rng i)) →
  heap !! p = Some v →
  ∃ s' heap' v',
    Simulation_run step n rng k (s, heap) = Some (s', heap')
    ∧ heap' !! p = Some v'
    ∧ Vehicle.id v' = Vehicle.id v
    ∧ Vehicle.type v' = Vehicle.type v
    ∧ Vehicle.currentLane v' = Vehicle.currentLane v
    ∧ (Vehicle.speed v' = Vehicle.speed v ∨ Vehicle.speed v' = dbl 0).
Proof.
  intros Hok Hd Hp.
  destruct (Simulation_run_ok step n rng k s heap Hok Hd) as (s' & heap' & Hrun & _).
  destruct (Simulation_run_evolves
              (λ a b, same_identity a b
                      ∧ (Vehicle.speed b = Vehicle.speed a ∨ Vehicle.speed b = dbl 0))
              step) with
    (n := n) (rng := rng) (k := k) (s := s) (heap := heap) (s' := s')
    (heap' := heap') (p := p) (v := v)
    as (v' & Hv' & (Hid & Hty & Hcur) & Hspeed); try done.
  - intros v0. split; [done|by left].
  - intros v1 v2 v3 [Hi12 Hs12] [Hi23 Hs23].
    split; [by apply same_identity_trans with v2|].
    destruct Hs23 as [Hs23|Hs23]; [|by right].
    rewrite Hs23. exact Hs12.
  - intros lanes0 v0 v0' Hm. split; [by apply (same_identity_move step lanes0)|].
    by apply (Vehicle_move_speed lanes0 _ (double_of_int step)).
  - by exists s', heap', v'.
Qed.

Lemma X10_vehicle_constant_witness :
  ∃ s' heap' v',
    Simulation_run 1 20 (λ _, idle_draws) 0 demo_state = Some (s', heap')
    ∧ heap' !! 1%nat = Some v'
    ∧ Vehicle.id v' = 1%Z
    ∧ Vehicle.type v' = CAR
    ∧ Vehicle.currentLane v' = Some 0%nat
    ∧ (Vehicle.speed v' = dbl 36 ∨ Vehicle.speed v' = dbl 0).
Proof.
  apply (X10_vehicle_constant 1 20 (λ _, idle_draws) 0 demo_state.1 demo_state.2
           1%nat (vehicle_at 100 36) demo_state_ok (λ _, idle_draws_ok 1)).
  reflexivity.
Defined.

(** ** The lights along a run *)

Lemma light_at_S n : TrafficLight.update (light_at n) 1 = light_at (S n).
Proof.
  unfold light_at. rewrite Nat2Z.inj_succ.
  pose proof (Z.mod_pos_bound (Z.of_nat n) 20) as Hm.
  assert (Z.succ (Z.of_nat n) mod 20
          = if decide (Z.of_nat n mod 20 = 19) then 0 else Z.of_nat n mod 20 + 1)%Z
    as ->.
  { case_decide; Z.div_mod_to_equations; lia. }
  generalize dependent (Z.of_nat n mod 20)%Z. intros m Hm.
  assert (∃ i : nat, (i < 20)%nat ∧ m = Z.of_nat i) as (i & Hi & ->)
    by (exists (Z.to_nat m); lia).
  clear Hm. do 20 (destruct i as [|i]; [by vm_compute|]). lia.
Qed.

Lemma light_updates_light_at n :
  light_updates (TrafficLight.new 10 3 7) (replicate n 1%Z) = light_at n.
Proof.
  induction n as [|n IH]; [done|].
  rewrite replicate_S_end. unfold light_updates in *.
  rewrite foldl_app, IH. simpl. apply light_at_S.
Qed.

(** X11.  Along every run from [setup] with step 1, the lights of both
    lanes after [n] ticks are [light_at n]: RED with timer [m] when
    [m = n mod 20] is below 7, GREEN with timer [m - 7] when [m] is from 7
    to 16, YELLOW with timer [m - 17] when [m] is 17, 18 or 19.  The two
    lights are always in the same state, with period 20. *)
Theorem X11_light_schedule n rng :
  (∀ i, Draws_ok 2 (rng i)) →
  ∃ s heap,
    Simulation_run 1 n rng 0 (Simulation.setup Simulation.new, []) = Some (s, heap)
    ∧ Lane.light <$> Simulation.lanes s = [light_at n; light_at n]
    ∧ light_at (n + 20) = light_at n.
Proof.
  intros Hd.
  destruct (Simulation_run_ok 1 n rng 0 (Simulation.setup Simulation.new) []
              setup_Mem_ok Hd) as (s & heap & Hrun & _ & Hlen & _ & _ & Hl & _).
  exists s, heap. split; [done|].
  destruct (Hl 0%nat _ eq_refl) as (lane0 & Hlane0 & _ & _ & Hlight0).
  destruct (Hl 1%nat _ eq_refl) as (lane1 & Hlane1 & _ & _ & Hlight1).
  simpl in Hlight0, Hlight1, Hlen.
  change (TrafficLight.mk RED 10 3 7 0) with (TrafficLight.new 10 3 7)
    in Hlight0, Hlight1.
  rewrite light_updates_light_at in Hlight0, Hlight1.
  split.
  - destruct (Simulation.lanes s) as [|a [|b [|c ls]]]; try done.
    injection Hlane0 as ->. injection Hlane1 as ->. simpl.
    by rewrite Hlight0, Hlight1.
  - unfold light_at. rewrite Nat2Z.inj_add.
    by replace ((Z.of_nat n + Z.of_nat 20) mod 20)%Z with (Z.of_nat n mod 20)%Z
      by (change (Z.of_nat 20) with (1 * 20)%Z; by rewrite Z.mod_add).
Qed.

Lemma X11_light_schedule_witness :
  ∃ s heap,
    Simulation_run 1 37 (λ _, idle_draws) 0 (Simulation.setup Simulation.new, [])
    = Some (s, heap)
    ∧ Lane.light <$> Simulation.lanes s = [light_at 37; light_at 37]
    ∧ light_at (37 + 20) = light_at 37.
Proof.
  apply (X11_light_schedule 37 (λ _, idle_draws)).
  intros _. apply idle_draws_ok.
Defined.

(** ** When a tick is undefined *)




(** ** What main prints *)

Lemma Simulation_run_S step n rng k st :
  Simulation_run step (S n) rng k st
  = Simulation.update step (rng k) st ≫= Simulation_run step n rng (S k).
Proof. done. Qed.

Lemma Simulation_run_snoc step n : ∀ rng k st,
  Simulation_run step (S n) rng k st
  = Simulation_run step n rng k st ≫= Simulation.update step (rng (k + n)%nat).
Proof.
  induction n as [|n IH]; intros rng k st.
  - simpl. rewrite Nat.add_0_r. by destruct (Simulation.update step (rng k) st).
  - rewrite (Simulation_run_S step (S n)), (Simulation_run_S step n rng k st).
    destruct (Simulation.update step (rng k) st) as [st1|]; [|done].
    cbn [mbind option_bind].
    rewrite IH. by replace (S k + n)%nat with (k + S n)%nat by lia.
Qed.

Lemma display_lanes_length heap ls out :
  Simulation.display_lanes heap ls = Some out → length out = (2 * length ls)%nat.
Proof.
  revert out. induction ls as [|lane ls IH]; intros out Hout; simpl in Hout.
  { by injection Hout as <-. }
  unfold Simulation.display_lane in Hout.
  destruct (Simulation.draw_vehicles _ _ _ _) as [road'|]; simpl in Hout; [|done].
  destruct (Simulation.display_lanes heap ls) as [out'|]; simpl in Hout; [|done].
  injection Hout as <-. simpl. rewrite (IH out' eq_refl). lia.
Qed.

Lemma main_loop_frames rng init fuel : ∀ k s heap out,
  Simulation_run 1 k rng 0 init = Some (s, heap) →
  Mem_ok (Simulation.lanes s, heap) →
  (∀ i, Draws_ok (length (Simulation.lanes s)) (rng i)) →
  Simulation.simTime s = Z.of_nat k → (k ≤ 60)%nat → (60 - k ≤ fuel)%nat →
  ∃ st',
    main_loop fuel rng k (s, heap) out
    = Returned (60%nat, st',
                out ++ (seq k (60 - k) ≫= λ j, frame_after rng init j ++ [Sleep 500])).
Proof.
  induction fuel as [|fuel IH]; intros k s heap out Hrun Hok Hd Ht Hk Hfuel.
  - assert (k = 60)%nat as -> by lia. exists (s, heap).
    simpl. unfold Simulation.isRunning. simpl.
    rewrite bool_decide_eq_false_2 by lia. by rewrite app_nil_r.
  - destruct (decide (k = 60)%nat) as [->|Hne].
    { exists (s, heap). simpl. unfold Simulation.isRunning. simpl.
      rewrite bool_decide_eq_false_2 by lia. by rewrite app_nil_r. }
    simpl. unfold Simulation.isRunning at 1. simpl.
    rewrite bool_decide_eq_true_2 by lia.
    destruct (Simulation_update_ok 1 (rng k) s heap Hok (Hd k))
      as (s1 & heap1 & Hup & Hok1 & Ht1 & Hlen1 & _).
    rewrite Hup.
    destruct (display_ok s1 heap1 Hok1) as [frame Hframe]. rewrite Hframe.
    rewrite int_add_small in Ht1 by (unfold INT_MIN, INT_MAX; lia).
    assert (Simulation_run 1 (S k) rng 0 init = Some (s1, heap1)) as Hrun1.
    { rewrite Simulation_run_snoc, Hrun. simpl. exact Hup. }
    destruct (IH (S k) s1 heap1 (out ++ frame ++ [Sleep 500]) Hrun1 Hok1)
      as (st' & Hloop); [|lia..|].
    { by rewrite Hlen1. }
    exists st'. rewrite Hloop. do 2 f_equal.
    replace (60 - k)%nat with (S (60 - S k)) by lia.
    simpl. unfold frame_after at 2. rewrite Hrun1. simpl. rewrite Hframe. simpl.
    by rewrite <- !app_assoc.
Qed.

(** X13.  With fuel for 60 iterations and draws in range, what [main]
    prints is, for j = 0, 1, ..., 59 in this order, the frame [display]
    gives for the state after j + 1 ticks followed by one sleep of 500 ms,
    and then the termination line.  Each frame is defined, has six events
    (the screen clear, the time line and two prints per lane) and its time
    line shows j + 1: the state is updated before it is displayed. *)
Theorem X13_main_frames fuel rng :
  (60 ≤ fuel)%nat → (∀ i, Draws_ok 2 (rng i)) →
  let init := (Simulation.setup Simulation.new, []) in
  main fuel rng
  = Returned ((seq 0 60 ≫= λ j, frame_after rng init j ++ [Sleep 500])
              ++ [Print "Simulation ended.
"], 0%Z)
  ∧ ∀ j, (j < 60)%nat →
      ∃ st rest,
        Simulation_run 1 (S j) rng 0 init = Some st
        ∧ Simulation.display st = Some (frame_after rng init j)
        ∧ frame_after rng init j
          = Clear :: Print ("Simulation Time: " +:+ pretty (Z.of_nat (S j)) +:+ "s
") :: rest
        ∧ length rest = 4%nat.
Proof.
  intros Hfuel Hd init. split.
  - destruct (main_loop_frames rng init fuel 0 (Simulation.setup Simulation.new) [] [])
      as (st' & Hloop); try done; try (simpl; lia).
    { apply setup_Mem_ok. }
    unfold main. subst init. rewrite Hloop. by destruct st' as [s' heap'].
  - intros j Hj.
    destruct (Simulation_run_ok 1 (S j) rng 0 (Simulation.setup Simulation.new) []
                setup_Mem_ok Hd) as (s & heap & Hrun & Hok & Hlen & _ & Ht & _).
    assert (Simulation.simTime s = Z.of_nat (S j)) as Hs.
    { rewrite Ht; simpl; unfold INT_MIN, INT_MAX; lia. }
    destruct (display_ok s heap Hok) as [frame Hframe].
    assert (frame_after rng init j = frame) as Hfa.
    { unfold frame_after, init. rewrite Hrun. simpl. by rewrite Hframe. }
    rewrite Hfa. unfold Simulation.display in Hframe. simpl in Hframe.
    destruct (Simulation.display_lanes heap (Simulation.lanes s)) as [out|] eqn:Hout;
      simpl in Hframe; [|done].
    injection Hframe as <-. exists (s, heap), out.
    split; [done|]. split.
    { unfold Simulation.display. simpl. by rewrite Hout. }
    split; [by rewrite Hs|].
    rewrite (display_lanes_length _ _ _ Hout), Hlen. done.
Qed.

Lemma X13_main_frames_witness :
  main 60 (λ _, spawn_draws)
  = Returned ((seq 0 60 ≫= λ j, frame_after (λ _, spawn_draws)
                                   (Simulation.setup Simulation.new, []) j
                                 ++ [Sleep 500])
              ++ [Print "Simulation ended.
"], 0%Z).
Proof.
  apply (X13_main_frames 60 (λ _, spawn_draws)); [lia|].
  intros _. apply spawn_draws_ok.
Defined.

(** ** The order of a lane's vector *)

Lemma StronglySorted_sublist {A} (R : relation A) (l1 l2 : list A) :
  l1 `sublist_of` l2 → StronglySorted R l2 → StronglySorted R l1.
Proof.
  induction 1 as [|x l1 l2 Hsub IH|x l1 l2 Hsub IH]; intros Hs.
  - constructor.
  - apply StronglySorted_inv in Hs as [Hs Hall]. constructor; [by apply IH|].
    rewrite Forall_forall in Hall. apply Forall_forall. intros y Hy.
    apply Hall. by apply (elem_of_sublist l1).
  - apply StronglySorted_inv in Hs as [Hs _]. by apply IH.
Qed.

Lemma Simulation_update_sorted step d s heap :
  Mem_ok (Simulation.lanes s, heap) → Backref_ok (Simulation.lanes s, heap) →
  Draws_ok (length (Simulation.lanes s)) d →
  Forall (λ lane, StronglySorted lt (Lane.vehicles lane)) (Simulation.lanes s) →
  ∃ s' heap',
    Simulation.update step d (s, heap) = Some (s', heap')
    ∧ Mem_ok (Simulation.lanes s', heap') ∧ Backref_ok (Simulation.lanes s', heap')
    ∧ length (Simulation.lanes s') = length (Simulation.lanes s)
    ∧ Forall (λ lane, StronglySorted lt (Lane.vehicles lane)) (Simulation.lanes s').
Proof.
  intros Hok Hback Hd Hsorted.
  destruct (Simulation_tick_strong step d s heap Hok Hback Hd)
    as (s1 & heap1 & lanes' & heap' & Hspawn & _ & _ & _ & Hup & Hok' & Hback'
        & Hlen & _ & Hfilter & _).
  assert (Forall (λ lane, StronglySorted lt (Lane.vehicles lane)) (Simulation.lanes s1)
          ∧ length (Simulation.lanes s1) = length (Simulation.lanes s)) as [Hsorted1 Hlen1].
  { destruct Hspawn as [(_ & ty & l & lane & _ & _ & Hl & -> & _)|(_ & -> & _)];
      [|done].
    simpl. split; [|by rewrite length_insert].
    apply Forall_insert; [done|]. simpl.
    apply StronglySorted_app_2.
    - intros p q Hp Hq. apply list_elem_of_singleton in Hq as ->.
      destruct Hok as [Hlanes _]. simpl in Hlanes.
      destruct (Forall_lookup_1 _ _ _ _ Hlanes Hl) as [_ Hlt].
      rewrite Forall_forall in Hlt. by apply Hlt.
    - by apply (Forall_lookup_1 _ _ _ _ Hsorted Hl).
    - repeat constructor. }
  eexists _, heap'. split; [exact Hup|]. simpl.
  split; [done|]. split; [done|]. split; [done|].
  apply Forall_lookup_2. intros l lane' Hl'.
  destruct (lookup_lt_is_Some_2 (Simulation.lanes s1) l) as [lane1 Hl1].
  { rewrite Hlen1, <- Hlen. by apply lookup_lt_Some in Hl'. }
  destruct (Hfilter l lane1 Hl1) as (lane2 & Hl2 & (_ & _ & _ & Hsub) & _).
  assert (lane2 = lane') as -> by congruence.
  apply (StronglySorted_sublist _ _ _ Hsub).
  by apply (Forall_lookup_1 _ _ _ _ Hsorted1 Hl1).
Qed.

Lemma Simulation_run_sorted step n : ∀ rng k s heap,
  Mem_ok (Simulation.lanes s, heap) → Backref_ok (Simulation.lanes s, heap) →
  (∀ i, Draws_ok (length (Simulation.lanes s)) (rng i)) →
  Forall (λ lane, StronglySorted lt (Lane.vehicles lane)) (Simulation.lanes s) →
  ∃ s' heap',
    Simulation_run step n rng k (s, heap) = Some (s', heap')
    ∧ Forall (λ lane, StronglySorted lt (Lane.vehicles lane)) (Simulation.lanes s').
Proof.
  induction n as [|n IH]; intros rng k s heap Hok Hback Hd Hsorted.
  { by exists s, heap. }
  destruct (Simulation_update_sorted step (rng k) s heap Hok Hback (Hd k) Hsorted)
    as (s1 & heap1 & Hup & Hok1 & Hback1 & Hlen1 & Hsorted1).
  destruct (IH rng (S k) s1 heap1 Hok1 Hback1) as (s' & heap' & Hrun & Hsorted');
    [by rewrite Hlen1|done|].
  exists s', heap'. simpl. rewrite Hup. by simpl.
Qed.

(** X14.  In every state the simulation reaches from [setup], each lane's
    vector lists its vehicles by increasing address, that is, in the order
    in which they were generated: [push_back] appends the newest address
    and [erase] keeps the order of the others.  Of two vehicles of a lane,
    the one nearer the front of the vector has the smaller address. *)
Theorem X14_lane_order step n rng :
  (∀ i, Draws_ok 2 (rng i)) →
  ∃ s heap,
    Simulation_run step n rng 0 (Simulation.setup Simulation.new, []) = Some (s, heap)
    ∧ ∀ l lane, Simulation.lanes s !! l = Some lane →
        StronglySorted lt (Lane.vehicles lane)
        ∧ ∀ i j p q, Lane.vehicles lane !! i = Some p → Lane.vehicles lane !! j = Some q →
                     (i < j)%nat → (p < q)%nat.
Proof.
  intros Hd.
  destruct (Simulation_run_sorted step n rng 0 (Simulation.setup Simulation.new) []
              setup_Mem_ok) as (s & heap & Hrun & Hsorted); [|done|..].
  { intros l lane p Hl Hp. simpl in Hl.
    destruct l as [|[|l]]; [| |done]; injection Hl as <-; by apply elem_of_nil in Hp. }
  { repeat constructor. }
  exists s, heap. split; [done|]. intros l lane Hl.
  pose proof (Forall_lookup_1 _ _ _ _ Hsorted Hl) as Hs. simpl in Hs.
  split; [done|]. intros i j p q Hi Hj Hij.
  rewrite <- (take_drop_middle _ _ _ Hi) in Hs, Hj.
  apply StronglySorted_app in Hs as (_ & _ & Hs).
  apply StronglySorted_inv in Hs as [_ Hall].
  rewrite Forall_forall in Hall. apply Hall.
  assert (length (take i (Lane.vehicles lane)) = i) as Hlen.
  { apply length_take_le. apply lookup_lt_Some in Hi. lia. }
  rewrite lookup_app_r in Hj by lia. rewrite Hlen in Hj.
  destruct (j - i)%nat as [|m] eqn:Hm; [lia|]. simpl in Hj.
  by apply list_elem_of_lookup_2 in Hj.
Qed.

Lemma X14_lane_order_witness :
  ∃ s heap,
    Simulation_run 1 3 (λ _, spawn_draws) 0 (Simulation.setup Simulation.new, [])
    = Some (s, heap)
    ∧ ∀ l lane, Simulation.lanes s !! l = Some lane →
        StronglySorted lt (Lane.vehicles lane)
        ∧ ∀ i j p q, Lane.vehicles lane !! i = Some p → Lane.vehicles lane !! j = Some q →
                     (i < j)%nat → (p < q)%nat.
Proof.
  apply (X14_lane_order 1 3 (λ _, spawn_draws)).
  intros _. apply spawn_draws_ok.
Defined.
